(* ===== verification/_CoqProject ===== *)
-Q . S2P
Prelude.v
Headers.v
Status.v
Graph.v
Store.v
Timeline.v
Service.v
Client.v
Clients.v
