(* ===== verification/Prelude.v ===== *)
(** * TinySNS: a verification development of ezrabartlett/HW2438

    The repository is the skeleton of a small social network ("tiny
    SNS") over gRPC.  Two C++ files are under [src/]:

    - [src/tsc.cc], the client: [main] parses [-h host -u user -p port]
      with [getopt]; [Client::connectTo] creates the stub, calls the
      [Login] RPC and reads its reply code; [Client::processCommand]
      parses one command line ([FOLLOW x], [UNFOLLOW x], [LIST],
      [TIMELINE]), calls the matching RPC and maps the reply's status
      string to the [IStatus] enumeration of [client.h];
      [Client::processTimeline] has an empty body whose intended
      polling loop is left as a comment (lines 232-282).
    - [src/tsd.cc], the server: only its [#include]s and [using]
      declarations.  The service itself (users, follow graph, post
      store, timeline streaming) is not in the repository; it is
      modelled from [spec.md] (sections 3-8), and every such definition
      is marked [spec_modelled] in the manifest.

    How the parts interact: the client sends one request per command
    to the service; the service keeps the shared state (user
    directory, follow graph, post store, one session per connection)
    and answers each request with a status code string ["0"] .. ["5"],
    which the client decodes into an [IStatus].  In timeline mode the
    service streams posts to the client (spec section 6); the client
    side of that mode, [processTimeline], is an empty body.  In the model the client talks
    to the service through the class [Client.TinySNSStub] (the three
    unary RPCs it calls); [Client.Service_stub] is its instance on the
    pair (service state, connection id), so that every client theorem
    about the real service is a statement about the composition.

    ** Files (in dependency order, as in [_CoqProject])

    - [Prelude] (this file): the [sns_scope], the [result] type of
      fallible operations with stdpp's monad notation, the [ascending]
      predicate on lists ordered by a natural-number key with its
      executable test and [Decision] instance, the lemmas on strictly
      sorted lists the merge proofs share, the [sns] hint database and
      the [sns_auto] tactic.
    - [Headers]: the [#include] lines and using-declarations of both
      sources (tsc.cc 1-21, tsd.cc 1-22, all of tsd.cc), checked as a
      compiler checks a using-declaration at namespace scope.
    - [Status]: the status taxonomy [IStatus] (client.h), its wire
      encoding [status_code] (the service side) and the client's
      decoder [decode_status] (tsc.cc 161-174).
    - [Graph]: the user directory and follow graph of the service
      (spec 4.1, 4.2) as a [gset] of names and a [gmap] of followee
      sets: [ensure_user] (Login), [follow], [unfollow], [list_users],
      with the graph invariant (edges between registered users, no
      self edge) and every error branch.
    - [Store]: the post store (spec 4.3) behind the interface class
      [PostStore] with its laws [PostStoreLaws]; the implementation
      [AuthorStore] keeps one append log per author and a global
      logical clock and refines the abstract global log [AbsStore].
    - [Timeline]: the merge engine (spec 4.4), proved against the
      [PostStore] interface: the two-way merge [merge2], the k-way
      merge [kmerge] over the subscriber and its followees, and one
      delivery cycle [timeline_cycle] with its cursor.
    - [Service]: the service facade (spec 4.5-7): the state [World]
      joining graph, store and the sessions (a [gmap] from connection
      id to [Session]: user, protocol phase, cursor, posts delivered),
      the handlers of the requests ([handle]), the protocol phases
      [DISCONNECTED -> LOGGED_IN -> COMMAND_MODE -> STREAMING_MODE] as
      the step relation [phase_step] and its executable [next_phase],
      and [run] over any interleaving of requests of any connections.
    - [Client]: [src/tsc.cc]: the [Client] record and the option loop
      of [main], [connectTo], [processCommand] with the C++ pieces it
      uses ([strncmp], [std::string::substr] and its [out_of_range]),
      [processTimeline] (an empty body), and the composition with the
      service through [Service_stub].
    - [Clients]: two clients served concurrently, their command lines
      in any scheduler order ([run_interleaved]), proved equivalent to
      each running alone by a simulation up to the view of one user
      ([wview_eq], with [Equivalence] and [Proper] instances for
      [Graph.gview_eq], [Graph.follow] and [Graph.unfollow]).

    ** What the theorems show

    The claims of the development (C1-C11) are about the code of
    [src/], alone or composed with the service:
    - refinement: a FOLLOW line makes exactly one Follow request of its
      connection, for whatever name the dangling [c_str()] pointer
      yields, and reports exactly the status the service decided (C1);
      [connectTo] agrees with the service's Login (C3);
    - error reporting: a call refused by the stub is reported as
      [SUCCESS] (C2), as is every status string outside the six known
      codes (C4); [processCommand] throws exactly on short
      FOLLOW/UNFOLLOW lines (C10);
    - functional behaviour: the lines that make no RPC (C5), [main]'s
      options (C6), the keyword tests accept any separator after
      FOLLOW (C7);
    - type: the using-declarations of tsc.cc and tsd.cc cannot both be
      well formed, whatever the package of the generated code (C8);
    - safety: a client session changes no other user's follow set, not
      the store and no other session (C9);
    - concurrency: for two clients logged in as different users, any
      interleaving of their command lines gives each exactly the
      replies of its lines run alone, and each user's follow set ends
      as its own session leaves it (C11).
    The service components carry their own lemmas, on which the claims
    rest: every handler preserves the graph invariant and the session
    invariant ([Service.handle_wf], [Service.run_wf]); the k-way merge
    equals the time-ordered filter of the global log
    ([Timeline.kmerge_equiv]); a cycle delivers exactly the posts of
    the current sources newer than the cursor ([Timeline.timeline_cycle_spec]);
    under any interleaving each session's delivered stream is strictly
    ascending and only grows ([Service.stream_ascending],
    [Service.delivered_prefix]); after an unfollow no later cycle
    delivers the unfollowed author ([Service.unfollow_stops_delivery]);
    streaming is never left ([Service.streaming_absorbing]).

    ** Bounds, fuel and what is not modelled

    Time stamps are unbounded [nat]s: the spec's logical clock is an
    unbounded integer.  No definition uses fuel: every recursion is
    structural (the two-way merge is a nested structural fixpoint), so
    every operation is total.  C++ strings are Rocq strings without
    NUL characters.  Not modelled: gRPC transport, channel creation
    and threads (a failed call is the value [RpcFailed]; concurrent
    clients are arbitrary interleavings of atomic handlers, which the
    spec's per-entity locks give); terminal I/O ([std::cout],
    [displayPostMessage], [getPostMessage]); [getopt]'s own scanning
    of [argv] (the model starts from the option stream it returns);
    the contents of the dangling [c_str()] pointer of tsc.cc 134 and
    144 (undefined behaviour: with glibc a name of 16 characters or
    more is overwritten by [free]), left as the unspecified function
    [dangling_read] over which every client theorem is quantified;
    the polling loop written as a comment inside [processTimeline]
    (232-282), which is not part of the program; [run_client] of [client.h], which is
    not in the repository and is modelled from the spec as
    [Client.process_commands].  Of the headers ([<grpc++/grpc++.h>],
    [client.h], the generated [tinysns.grpc.pb.h]) only the names the
    sources bring into scope are modelled, and the package of the
    absent [.proto] file is a parameter of [Headers]. *)

From stdpp Require Import base list sets sorting.

Declare Scope sns_scope.
Delimit Scope sns_scope with sns.
Open Scope sns_scope.

Create HintDb sns.

(** ** Component results

    The components of the service return their failures as values
    (spec section 7): [Ok a] or [Err e].  The [MRet]/[MBind] instances
    give stdpp's [x ← m; k] notation for handlers that chain checks. *)

Inductive result (E A : Type) : Type :=
  | Ok (a : A)
  | Err (e : E).
Arguments Ok {E A} a.
Arguments Err {E A} e.

#[export] Instance result_ret {E} : MRet (result E) := fun _ a => Ok a.
#[export] Instance result_bind {E} : MBind (result E) :=
  fun _ _ f m => match m with Ok a => f a | Err e => Err e end.

Definition is_ok {E A} (r : result E A) : bool :=
  match r with Ok _ => true | Err _ => false end.

(** Two results agree up to [R]: both succeed with related values, or
    both fail with the same error. *)
Definition result_rel {E A B} (R : A -> B -> Prop) (r : result E A) (r' : result E B) : Prop :=
  match r, r' with
  | Ok a, Ok b => R a b
  | Err e, Err e' => e = e'
  | _, _ => False
  end.

Lemma bind_Ok {E A B} (m : result E A) (f : A -> result E B) b :
  (m ≫= f) = Ok b <-> exists a, m = Ok a /\ f a = Ok b.
Proof. destruct m; simpl; split; [eauto | by intros (?&[=->]&?) | done | by intros (?&?&?)]. Qed.

Lemma bind_Err {E A B} (m : result E A) (f : A -> result E B) e :
  m = Err e -> (m ≫= f) = Err e.
Proof. by intros ->. Qed.

(** A filter that keeps nothing. *)
Lemma filter_none {A} (P : A -> Prop) `{forall x, Decision (P x)} (l : list A) :
  (forall x, x ∈ l -> ~ P x) -> filter P l = [].
Proof.
  induction l as [|x l IH]; intros Hn; [done|].
  rewrite filter_cons, decide_False by set_solver. set_solver.
Qed.


(** ** Lists strictly ascending by a natural-number key *)

Section Ascending.
  Context {A : Type} (k : A -> nat).

  (** [ascending k l]: the keys of [l] strictly increase along the
      list.  Posts ordered by time stamp are the main instance. *)
Definition ascending (l : list A) : Prop :=
    StronglySorted (fun x y => k x < k y) l.

  (** The executable test: each element's key is below the keys of
      all the elements after it. *)
Fixpoint ascendingb (l : list A) : bool :=
    match l with
    | [] => true
    | x :: l' => forallb (fun y => Nat.ltb (k x) (k y)) l' && ascendingb l'
    end.

Lemma ascendingb_spec l : ascendingb l = true <-> ascending l.
  Proof.
    unfold ascending. induction l as [|x l IH]; simpl.
    - split; [constructor | done].
    - rewrite andb_true_iff, forallb_forall, IH, StronglySorted_cons,
        Forall_forall.
      setoid_rewrite Nat.ltb_lt. setoid_rewrite list_elem_of_In. done.
  Qed.

#[global] Instance ascending_dec l : Decision (ascending l).
  Proof.
    destruct (ascendingb l) eqn:E.
    - left. by apply ascendingb_spec.
    - right. intros H%ascendingb_spec. congruence.
  Defined.

Lemma ascending_nil : ascending [].
  Proof. constructor. Qed.

Lemma ascending_cons x l :
    ascending (x :: l) <-> (forall y, y ∈ l -> k x < k y) /\ ascending l.
  Proof. unfold ascending. rewrite StronglySorted_cons, Forall_forall. done. Qed.

Lemma ascending_tail x l : ascending (x :: l) -> ascending l.
  Proof. rewrite ascending_cons. tauto. Qed.

Lemma ascending_app l1 l2 :
    ascending (l1 ++ l2) <->
    (forall x y, x ∈ l1 -> y ∈ l2 -> k x < k y) /\ ascending l1 /\ ascending l2.
  Proof. apply StronglySorted_app. Qed.

Lemma ascending_filter (P : A -> Prop) `{forall x, Decision (P x)} l :
    ascending l -> ascending (filter P l).
  Proof.
    induction l as [|x l IH]; [done|].
    rewrite filter_cons, ascending_cons. intros [Hx Hl].
    case_decide; [|auto].
    apply ascending_cons. split; [|auto].
    intros y Hy%list_elem_of_filter. apply Hx. tauto.
  Qed.

Lemma ascending_NoDup l : ascending l -> NoDup l.
  Proof.
    induction l as [|x l IH]; [constructor|].
    rewrite ascending_cons. intros [Hx Hl]. constructor; [|auto].
    intros Hin. specialize (Hx x Hin). lia.
  Qed.

  (** Two ascending lists with the same elements are equal: the
      equivalence proofs of the merge reduce to membership. *)
Lemma ascending_unique l1 l2 :
    ascending l1 -> ascending l2 -> (forall x, x ∈ l1 <-> x ∈ l2) -> l1 = l2.
  Proof.
    intros H1 H2 Hm. apply (StronglySorted_unique_strong (fun x y => k x < k y)); [| done | done |].
    - intros x1 x2 _ _ ??. lia.
    - apply NoDup_Permutation; auto using ascending_NoDup.
  Qed.

  (** The keys of an ascending list are above any lower bound of its
      head. *)
Lemma ascending_last_max l x :
    ascending l -> last l = Some x -> forall y, y ∈ l -> k y <= k x.
  Proof.
    induction l as [|z l IH]; [done|].
    rewrite ascending_cons. intros [Hz Hl] Hlast y Hy.
    destruct l as [|w l'].
    - simpl in Hlast. simplify_eq. apply list_elem_of_singleton in Hy. by subst.
    - assert (Hx : x ∈ w :: l') by (apply last_Some_elem_of; done).
      apply elem_of_cons in Hy as [->|Hy].
      + specialize (Hz x Hx). lia.
      + by apply IH.
  Qed.
  (** In an ascending list the key identifies the element. *)
Lemma ascending_key_inj l x y :
    ascending l -> x ∈ l -> y ∈ l -> k x = k y -> x = y.
  Proof.
    induction l as [|z l IH]; [set_solver|].
    rewrite ascending_cons. intros [Hz Hl] Hx Hy Hk.
    apply elem_of_cons in Hx as [->|Hx], Hy as [->|Hy]; try done.
    - specialize (Hz y Hy). lia.
    - specialize (Hz x Hx). lia.
    - by apply IH.
  Qed.

End Ascending.

#[export] Hint Resolve ascending_nil ascending_tail ascending_filter
  ascending_NoDup : sns.

(** [sns_auto]: the closing tactic of the development: first-order
    glue with the [sns] hints, then arithmetic. *)
Ltac sns_auto :=
  solve [ eauto with sns | naive_solver eauto with sns | lia ].
