(* ===== verification/Headers.v ===== *)
(** * Headers: the includes and using-declarations of both sources

    The first lines of [src/tsc.cc] (1-21) and [src/tsd.cc] (1-22) include
    the same headers and then bring names into the global scope with
    using-declarations [using N::m;].  At namespace scope such a
    declaration is well formed only when [N] names a namespace visible
    at that point and that namespace declares [m]; it then introduces
    [m] into the global scope.

    The declarations each header makes visible are those of the
    libraries: [<iostream>] and [<string>] open namespace [std],
    [<grpc++/grpc++.h>] declares namespace [grpc] with the classes the
    sources name, [client.h] (not in the repository) declares
    [IClient], [IReply] and [IStatus], and the generated
    [tinysns.grpc.pb.h] declares one namespace, named after the
    package of the (absent) [.proto] file, holding the messages and the
    service class.  That package name is a parameter [pkg] of the
    model: the theorem holds whatever it is. *)

From stdpp Require Import base list sets strings.
From S2P Require Import Prelude.

Local Open Scope string_scope.

(** A declaration at global scope: a namespace with the members it
    declares, or any other named entity (class, function, type). *)
Inductive Decl :=
  | DNamespace (name : string) (members : list string)
  | DEntity (name : string).

Definition Scope := list Decl.

(** The declarations each included header contributes; [pkg] is the
    package of the generated code. *)
Definition header_decls (pkg : string) (h : string) : list Decl :=
  if String.eqb h "iostream" then [DNamespace "std" ["cout"; "cin"; "endl"]]
  else if String.eqb h "string" then [DNamespace "std" ["string"]]
  else if String.eqb h "unistd.h" then [DEntity "getopt"; DEntity "optarg"]
  else if String.eqb h "grpc++/grpc++.h" then
    [DNamespace "grpc"
       ["Channel"; "ClientContext"; "ClientReader"; "ClientReaderWriter";
        "ClientWriter"; "Status"; "Server"; "ServerBuilder"; "ServerContext";
        "ServerReader"; "ServerReaderWriter"; "ServerWriter";
        "CreateChannel"; "InsecureChannelCredentials"]]
  else if String.eqb h "client.h" then [DEntity "IClient"; DEntity "IReply"; DEntity "IStatus"]
  else if String.eqb h "tinysns.grpc.pb.h" then
    [DNamespace pkg ["User"; "ReplyStatus"; "Posting"; "NewPosting"; "TinySNS"]]
  else [].

(** The global scope after a list of [#include]s. *)
Definition include_all (pkg : string) (hs : list string) : Scope :=
  concat (map (header_decls pkg) hs).

(** Does some namespace [n] visible in [sc] declare [m]?  (A namespace
    may be opened by several headers, as [std] is.) *)
Definition ns_declares (sc : Scope) (n m : string) : bool :=
  existsb (fun d => match d with
                    | DNamespace n' ms => String.eqb n' n && existsb (String.eqb m) ms
                    | DEntity _ => false
                    end) sc.

(** The using-declarations in order: the first ill-formed one is the
    compiler's error; each well-formed one adds its name to the scope. *)
Fixpoint check_usings (sc : Scope) (us : list (string * string))
    : result (string * string) Scope :=
  match us with
  | [] => Ok sc
  | (n, m) :: rest =>
      if ns_declares sc n m then check_usings (app sc [DEntity m]) rest
      else Err (n, m)
  end.

(** src/tsc.cc lines 1-9 (lines 2-4 are commented out). *)
Definition tsc_includes : list string :=
  ["iostream"; "string"; "unistd.h"; "grpc++/grpc++.h"; "client.h"; "tinysns.grpc.pb.h"].

(** src/tsc.cc lines 11-21. *)
Definition tsc_usings : list (string * string) :=
  [("grpc", "Channel"); ("grpc", "ClientContext"); ("grpc", "ClientReader");
   ("grpc", "ClientReaderWriter"); ("grpc", "ClientWriter"); ("grpc", "Status");
   ("tinysns", "User"); ("tinysns", "ReplyStatus"); ("tinysns", "Posting");
   ("tinysns", "NewPosting"); ("tinysns", "TinySNS")].

(** src/tsd.cc lines 1-9, the same includes. *)
Definition tsd_includes : list string :=
  ["iostream"; "string"; "unistd.h"; "grpc++/grpc++.h"; "client.h"; "tinysns.grpc.pb.h"].

(** src/tsd.cc lines 11-22. *)
Definition tsd_usings : list (string * string) :=
  [("grpc", "Server"); ("grpc", "ServerBuilder"); ("grpc", "ServerContext");
   ("grpc", "ServerReader"); ("grpc", "ServerReaderWriter"); ("grpc", "ServerWriter");
   ("grpc", "Status");
   ("TinySNS", "User"); ("TinySNS", "ReplyStatus"); ("TinySNS", "Posting");
   ("TinySNS", "NewPosting"); ("TinySNS", "TinySNS")].

(** ** Lemmas *)

Lemma ns_declares_app sc sc' n m :
  ns_declares (app sc sc') n m = ns_declares sc n m || ns_declares sc' n m.
Proof. apply existsb_app. Qed.

(** The only namespace that can declare [User] is the generated one. *)
Lemma ns_declares_User pkg n :
  ns_declares (include_all pkg tsc_includes) n "User" = true -> n = pkg.
Proof.
  unfold include_all, ns_declares. simpl.
  rewrite !orb_false_r, !andb_false_r. simpl.
  rewrite andb_true_r. by intros ?%String.eqb_eq.
Qed.

(** A scope extended by non-namespace names declares no more. *)
Lemma ns_declares_entities sc ms n m :
  ns_declares (app sc (map DEntity ms)) n m = ns_declares sc n m.
Proof.
  rewrite ns_declares_app. replace (ns_declares (map DEntity ms) n m) with false.
  - apply orb_false_r.
  - induction ms; simpl; done.
Qed.

(** Every declaration of a well-formed list names a member of a
    namespace of the included scope. *)
Lemma check_usings_declared sc us sc' :
  check_usings sc us = Ok sc' -> Forall (fun '(n, m) => ns_declares sc n m = true) us.
Proof.
  revert sc. induction us as [|[n m] us IH]; intros sc; simpl; [by constructor|].
  destruct (ns_declares sc n m) eqn:Hd; [|done]. intros H.
  constructor; [done|]. eapply Forall_impl; [exact (IH _ H)|].
  intros [n' m']. by rewrite (ns_declares_entities sc [m]).
Qed.

(** C8: the two sources disagree on the namespace of the generated
    code, so they cannot both compile.  Whatever the package of the
    [.proto] file, if the using-declarations of tsc.cc (lines 11-21,
    [tinysns::User] ...) are well formed, then those of tsd.cc are not:
    its first error is [using TinySNS::User;] (line 18), since no
    namespace [TinySNS] is declared. *)
Theorem tsd_usings_ill_formed (pkg : string) :
  is_ok (check_usings (include_all pkg tsc_includes) tsc_usings) = true ->
  check_usings (include_all pkg tsd_includes) tsd_usings = Err ("TinySNS", "User").
Proof.
  destruct (check_usings _ tsc_usings) eqn:E; [|done]. intros _.
  apply check_usings_declared in E.
  rewrite Forall_forall in E.
  specialize (E ("tinysns", "User") ltac:(unfold tsc_usings; set_solver)).
  apply ns_declares_User in E as <-. vm_compute. reflexivity.
Qed.

Lemma tsd_usings_ill_formed_witness :
  is_ok (check_usings (include_all "tinysns" tsc_includes) tsc_usings) = true /\
  check_usings (include_all "tinysns" tsd_includes) tsd_usings = Err ("TinySNS", "User").
Proof.
  split; [vm_compute; reflexivity|].
  apply tsd_usings_ill_formed. vm_compute. reflexivity.
Defined.
