(* ===== verification/Status.v ===== *)
(** * Status: the status taxonomy and its wire encoding

    [IStatus] is the enumeration of [client.h] (spec section 4.5 lists
    the same six values).  The service answers every command with a
    [ReplyStatus] message whose [status] field is a string; the client
    decodes it in [Client::processCommand] (src/tsc.cc 161-174).  The
    service's encoding is not in the repository: [status_code] is the
    encoding the client's decoder expects, one digit per value in the
    order of the enumeration. *)

From stdpp Require Import base list sets strings.
From S2P Require Import Prelude.

Local Open Scope string_scope.

(** ** Data *)

Inductive IStatus :=
  | SUCCESS
  | FAILURE_ALREADY_EXISTS
  | FAILURE_NOT_EXISTS
  | FAILURE_INVALID_USERNAME
  | FAILURE_INVALID
  | FAILURE_UNKNOWN.

#[export] Instance IStatus_eq_dec : EqDecision IStatus.
Proof. solve_decision. Defined.

(** The protobuf message [tinysns::ReplyStatus]: one string field,
    empty in a default-constructed message (the value the client reads
    when no RPC was made, or when the RPC failed before a reply). *)
Record ReplyStatus := mkReplyStatus { status : string }.

Definition default_ReplyStatus : ReplyStatus := mkReplyStatus "".

(** ** The service's encoding and the client's decoder *)

(** The code the service puts in [ReplyStatus.status] for each
    outcome. *)
Definition status_code (s : IStatus) : string :=
  match s with
  | SUCCESS => "0"
  | FAILURE_ALREADY_EXISTS => "1"
  | FAILURE_NOT_EXISTS => "2"
  | FAILURE_INVALID_USERNAME => "3"
  | FAILURE_INVALID => "4"
  | FAILURE_UNKNOWN => "5"
  end.

(** src/tsc.cc 161-174: the chain of [if (status.status() == "k")]
    tests, with the final [else] that maps every other string,
    the empty one included, to [SUCCESS]. *)
Definition decode_status (code : string) : IStatus :=
  if String.eqb code "0" then SUCCESS
  else if String.eqb code "1" then FAILURE_ALREADY_EXISTS
  else if String.eqb code "2" then FAILURE_NOT_EXISTS
  else if String.eqb code "3" then FAILURE_INVALID_USERNAME
  else if String.eqb code "4" then FAILURE_INVALID
  else if String.eqb code "5" then FAILURE_UNKNOWN
  else SUCCESS.

(** The strings the decoder recognises. *)
Definition known_codes : list string := ["0"; "1"; "2"; "3"; "4"; "5"].

(** [case_string_eqb]: split on the first string comparison of the
    goal, as the C++ [==] chains of the client do. *)
Ltac case_string_eqb :=
  match goal with
  | |- context [String.eqb ?a ?b] => destruct (String.eqb_spec a b)
  end.

(** ** Theorems *)

(** Decoding is a left inverse of the service's encoding. *)
Lemma decode_status_code_eq (s : IStatus) : decode_status (status_code s) = s.
Proof. by destruct s. Qed.

Lemma status_code_inj s1 s2 : status_code s1 = status_code s2 -> s1 = s2.
Proof. destruct s1, s2; simpl; by intros [=]. Qed.

Lemma status_code_known s : status_code s ∈ known_codes.
Proof. destruct s; simpl; set_solver. Qed.

(** C4: every string outside the six known codes, the empty string of
    a default [ReplyStatus] included, is decoded as [SUCCESS]; in
    particular an unclassified reply is never [FAILURE_UNKNOWN]. *)
Theorem decode_status_unknown (code : string) :
  code ∉ known_codes -> decode_status code = SUCCESS.
Proof.
  intros Hn. unfold decode_status.
  repeat (case_string_eqb; [subst; exfalso; apply Hn; set_solver|]).
  done.
Qed.

(** The instance of C4 at the reply the client reads when no reply
    arrived. *)
Lemma decode_status_unknown_witness :
  ("" ∉ known_codes) /\ decode_status (status default_ReplyStatus) = SUCCESS.
Proof.
  split.
  - unfold known_codes. set_solver.
  - apply (decode_status_unknown ""). unfold known_codes. set_solver.
Defined.

(** A decoded code is [SUCCESS] only when the code is ["0"] or unknown. *)
Lemma decode_status_success code :
  decode_status code = SUCCESS -> code = "0" \/ code ∉ known_codes.
Proof.
  unfold decode_status, known_codes.
  repeat (case_string_eqb; [subst; try discriminate; by left|]).
  intros _. right. set_solver.
Qed.
