(* ===== verification/Graph.v ===== *)
(** * Graph: the user directory and the follow graph of the service

    Spec sections 3, 4.1 and 4.2 (the service is not in the repository:
    [src/tsd.cc] has only its includes).  The directory is the set of
    registered user names; the follow graph maps each user to the set
    of users it follows.  Every operation returns [Ok] with the new
    state or [Err] with a [GraphError]; the service facade
    ([Service]) turns the error into a wire status. *)

From stdpp Require Import base list sets gmap strings.
From S2P Require Import Prelude.

Local Open Scope string_scope.

(** ** Data *)

(** The error kinds of spec section 7 that the directory and the graph
    produce; [UNKNOWN] belongs to the transport, not to these
    components. *)
Inductive GraphError :=
  | ErrAlreadyExists
  | ErrNotExists
  | ErrInvalidUsername
  | ErrInvalid.

#[export] Instance GraphError_eq_dec : EqDecision GraphError.
Proof. solve_decision. Defined.

Record Graph := mkGraph {
  users : gset string;                 (** the user directory *)
  following : gmap string (gset string) (** follower -> followees *)
}.

Definition empty_graph : Graph := mkGraph ∅ ∅.

(** The follow set of a user; a user with no entry follows nobody. *)
Definition following_of (g : Graph) (u : string) : gset string :=
  default ∅ (following g !! u).

Definition has_edge (g : Graph) (u v : string) : bool :=
  bool_decide (v ∈ following_of g u).

(** ** Operations *)

(** [EnsureUser] (spec 4.1): the empty name is invalid; an existing
    user is returned unchanged with [created = false]; a new user is
    registered with an empty follow set. *)
Definition ensure_user (u : string) (g : Graph) : result GraphError (bool * Graph) :=
  if String.eqb u "" then Err ErrInvalidUsername
  else if bool_decide (u ∈ users g) then Ok (false, g)
  else Ok (true, mkGraph ({[u]} ∪ users g) (<[u := ∅]> (following g))).

Definition user_exists (g : Graph) (u : string) : bool :=
  bool_decide (u ∈ users g).

Definition add_edge (g : Graph) (u v : string) : Graph :=
  mkGraph (users g) (<[u := {[v]} ∪ following_of g u]> (following g)).

Definition remove_edge (g : Graph) (u v : string) : Graph :=
  mkGraph (users g) (<[u := following_of g u ∖ {[v]}]> (following g)).

(** [Follow(follower, followee)] (spec 4.2).  The spec lists the
    self-follow, unknown-followee and duplicate-edge failures in this
    order; an unregistered follower (a caller that never logged in) is
    [INVALID_USERNAME] and is checked first. *)
Definition follow (u v : string) (g : Graph) : result GraphError Graph :=
  if negb (user_exists g u) then Err ErrInvalidUsername
  else if String.eqb u v then Err ErrInvalid
  else if negb (user_exists g v) then Err ErrNotExists
  else if has_edge g u v then Err ErrAlreadyExists
  else Ok (add_edge g u v).

(** [Unfollow(follower, followee)] (spec 4.2): removing an absent
    edge is reported as [NOT_EXISTS], not fatal. *)
Definition unfollow (u v : string) (g : Graph) : result GraphError Graph :=
  if negb (user_exists g u) then Err ErrInvalidUsername
  else if negb (has_edge g u v) then Err ErrNotExists
  else Ok (remove_edge g u v).

(** [ListFollowing] and [ListAll] (spec 4.2), as the [List] RPC asks
    them together: all registered users and the caller's follow set,
    a snapshot of the state at call time. *)
Definition list_users (u : string) (g : Graph)
    : result GraphError (gset string * gset string) :=
  if negb (user_exists g u) then Err ErrInvalidUsername
  else Ok (users g, following_of g u).

(** ** The graph invariant

    Every follower and followee is registered, and nobody follows
    themself (spec 3: [FollowEdge]). *)
Definition graph_wf (g : Graph) : Prop :=
  forall u fs, following g !! u = Some fs ->
    u ∈ users g /\ fs ⊆ users g /\ u ∉ fs.

(** ** Helper lemmas *)

Lemma following_of_insert_eq g u fs :
  default ∅ (<[u := fs]> (following g) !! u) = fs.
Proof. by rewrite lookup_insert_eq. Qed.

Lemma following_of_wf g u v : graph_wf g -> v ∈ following_of g u ->
  u ∈ users g /\ v ∈ users g /\ u <> v.
Proof.
  unfold following_of. intros Hwf Hv.
  destruct (following g !! u) as [fs|] eqn:E; simpl in Hv; [|set_solver].
  destruct (Hwf _ _ E) as (?&?&?). set_solver.
Qed.

Lemma graph_wf_insert g u fs :
  graph_wf g -> u ∈ users g -> fs ⊆ users g -> u ∉ fs ->
  graph_wf (mkGraph (users g) (<[u := fs]> (following g))).
Proof.
  intros Hwf Hu Hfs Hn w ws. simpl.
  rewrite lookup_insert. case_decide; [subst; intros [=<-]; done|].
  apply Hwf.
Qed.

Lemma has_edge_spec g u v : has_edge g u v = true <-> v ∈ following_of g u.
Proof. unfold has_edge. by rewrite bool_decide_eq_true. Qed.

Lemma user_exists_spec g u : user_exists g u = true <-> u ∈ users g.
Proof. unfold user_exists. by rewrite bool_decide_eq_true. Qed.

Lemma following_of_add_edge g u v w :
  following_of (add_edge g u v) w =
  if decide (u = w) then {[v]} ∪ following_of g u else following_of g w.
Proof.
  unfold add_edge, following_of at 1; simpl.
  rewrite lookup_insert. by case_decide.
Qed.

Lemma following_of_remove_edge g u v w :
  following_of (remove_edge g u v) w =
  if decide (u = w) then following_of g u ∖ {[v]} else following_of g w.
Proof.
  unfold remove_edge, following_of at 1; simpl.
  rewrite lookup_insert. by case_decide.
Qed.

(** The case analysis every graph proof starts with: unfold the
    handler and split on its guards. *)
Ltac graph_cases :=
  repeat first
    [ progress (unfold follow, unfollow, ensure_user, list_users in *)
    | match goal with
      | H : context [if negb ?b then _ else _] |- _ => destruct b eqn:?; simpl in H
      | |- context [if negb ?b then _ else _] => destruct b eqn:?; simpl
      | H : context [if has_edge ?g ?u ?v then _ else _] |- _ =>
          destruct (has_edge g u v) eqn:?; simpl in H
      | |- context [if has_edge ?g ?u ?v then _ else _] =>
          destruct (has_edge g u v) eqn:?; simpl
      | H : context [if String.eqb ?a ?b then _ else _] |- _ =>
          destruct (String.eqb_spec a b); simpl in H
      | |- context [if String.eqb ?a ?b then _ else _] =>
          destruct (String.eqb_spec a b); simpl
      end ];
  repeat match goal with
  | H : user_exists _ _ = true |- _ => apply user_exists_spec in H
  | H : user_exists _ _ = false |- _ =>
      apply not_true_iff_false in H; rewrite user_exists_spec in H
  | H : has_edge _ _ _ = true |- _ => apply has_edge_spec in H
  | H : has_edge _ _ _ = false |- _ =>
      apply not_true_iff_false in H; rewrite has_edge_spec in H
  end.

(** ** Sequences of Follow/Unfollow on one pair (spec section 8) *)

Inductive PairOp := PFollow | PUnfollow.

(** One operation of the sequence: a failed operation leaves the
    graph as it was. *)
Definition pair_step (a b : string) (g : Graph) (op : PairOp) : Graph :=
  let r := match op with PFollow => follow a b g | PUnfollow => unfollow a b g end in
  match r with Ok g' => g' | Err _ => g end.

Definition run_pair (a b : string) (ops : list PairOp) (g : Graph) : Graph :=
  fold_left (pair_step a b) ops g.

(** The edge a sequence should leave: the last operation decides. *)
Definition expected_edge (b0 : bool) (ops : list PairOp) : bool :=
  fold_left (fun _ op => match op with PFollow => true | PUnfollow => false end) ops b0.

(** ** Theorems *)

Lemma ensure_user_wf u g created g' :
  graph_wf g -> ensure_user u g = Ok (created, g') -> graph_wf g'.
Proof.
  intros Hwf H. graph_cases; try discriminate.
  - case_bool_decide; simplify_eq; [done|].
    intros w ws. simpl. rewrite lookup_insert. case_decide as Hw.
    + intros [=<-]. subst. set_solver.
    + intros Hl. destruct (Hwf _ _ Hl) as (?&?&?). set_solver.
Qed.

(** The directory's only failure is the invalid (empty) name. *)
Lemma ensure_user_err u g e : ensure_user u g = Err e -> e = ErrInvalidUsername /\ u = "".
Proof.
  unfold ensure_user. destruct (String.eqb_spec u ""); [by intros [=]|].
  by case_bool_decide.
Qed.

(** Every Follow, Unfollow and Login keeps the graph invariant:
    edges only between registered users and no self edge. *)
Theorem graph_ops_wf g :
  graph_wf g ->
  (forall u v g', follow u v g = Ok g' -> graph_wf g') /\
  (forall u v g', unfollow u v g = Ok g' -> graph_wf g') /\
  (forall u c g', ensure_user u g = Ok (c, g') -> graph_wf g').
Proof.
  intros Hwf. split_and!; [intros u v g' H..| eauto using ensure_user_wf].
  - graph_cases; simplify_eq.
    apply graph_wf_insert; [done..| |].
    + intros w [->%elem_of_singleton|Hw]%elem_of_union; [done|].
      by apply (following_of_wf g u w).
    + intros [->%elem_of_singleton|Hw]%elem_of_union; [done|].
      by apply (following_of_wf g u u) in Hw as (?&?&?).
  - graph_cases; simplify_eq.
    apply graph_wf_insert; [done..| |].
    + intros w [Hw _]%elem_of_difference. by apply (following_of_wf g u w).
    + intros [Hw _]%elem_of_difference.
      by apply (following_of_wf g u u) in Hw as (?&?&?).
Qed.

(** A registered user that follows itself always gets
    [FAILURE_INVALID] (the graph's [ErrInvalid]). *)
Theorem follow_self (g : Graph) (u : string) :
  u ∈ users g -> follow u u g = Err ErrInvalid.
Proof.
  intros Hu. apply user_exists_spec in Hu.
  unfold follow. rewrite Hu, String.eqb_refl. done.
Qed.

Lemma follow_self_witness :
  "alice" ∈ users (mkGraph {["alice"]} ∅) /\
  follow "alice" "alice" (mkGraph {["alice"]} ∅) = Err ErrInvalid.
Proof.
  split; [set_solver|]. apply follow_self. set_solver.
Defined.

(** Follow succeeds exactly when the follower and followee are
    registered and distinct and the edge is absent, and then it adds
    exactly that edge. *)
Theorem follow_ok_iff (g g' : Graph) (u v : string) :
  follow u v g = Ok g' <->
  u ∈ users g /\ u <> v /\ v ∈ users g /\ v ∉ following_of g u /\
  g' = add_edge g u v.
Proof.
  split.
  - intros H. graph_cases; simplify_eq; naive_solver.
  - intros (Hu & Huv & Hv & He & ->). graph_cases; done.
Qed.

(** No operation succeeds against an unregistered user: Follow of an
    unknown followee fails with [NOT_EXISTS] or [INVALID_USERNAME]. *)
Lemma follow_unregistered g u v :
  v ∉ users g -> follow u v g = Err ErrNotExists \/
                 follow u v g = Err ErrInvalidUsername \/
                 follow u v g = Err ErrInvalid.
Proof.
  rewrite <- user_exists_spec. intros Hv. apply not_true_is_false in Hv.
  unfold follow. rewrite Hv. destruct (user_exists g u); simpl; [|tauto].
  destruct (String.eqb_spec u v); tauto.
Qed.

(** Unfollow undoes Follow: after a successful Follow of [v] by
    [u], Unfollow succeeds and restores [u]'s follow set. *)
Theorem follow_unfollow_roundtrip (g g' : Graph) (u v : string) :
  follow u v g = Ok g' ->
  exists g'', unfollow u v g' = Ok g'' /\ following_of g'' u = following_of g u
              /\ users g'' = users g.
Proof.
  intros (Hu & _ & _ & Hn & ->)%follow_ok_iff.
  exists (remove_edge (add_edge g u v) u v). split_and!; [|  |done].
  - unfold unfollow.
    assert (user_exists (add_edge g u v) u = true) as -> by by apply user_exists_spec.
    assert (has_edge (add_edge g u v) u v = true) as ->.
    { apply has_edge_spec. rewrite following_of_add_edge, decide_True; set_solver. }
    done.
  - rewrite following_of_remove_edge, decide_True, following_of_add_edge,
      decide_True by done.
    set_solver.
Qed.

Lemma follow_unfollow_roundtrip_witness :
  follow "alice" "bob" (mkGraph {["alice"; "bob"]} ∅) =
    Ok (add_edge (mkGraph {["alice"; "bob"]} ∅) "alice" "bob") /\
  exists g'', unfollow "alice" "bob" (add_edge (mkGraph {["alice"; "bob"]} ∅) "alice" "bob")
                = Ok g'' /\
              following_of g'' "alice" = following_of (mkGraph {["alice"; "bob"]} ∅) "alice" /\
              users g'' = users (mkGraph {["alice"; "bob"]} ∅).
Proof.
  split; [reflexivity|]. apply follow_unfollow_roundtrip. reflexivity.
Defined.

(** Between two distinct registered users, Follow and Unfollow depend
    only on the edge. *)
Lemma follow_registered g a b :
  a ∈ users g -> b ∈ users g -> a <> b ->
  follow a b g = if has_edge g a b then Err ErrAlreadyExists else Ok (add_edge g a b).
Proof. intros Ha Hb Hab. graph_cases; done. Qed.

Lemma unfollow_registered g a b :
  a ∈ users g ->
  unfollow a b g = if has_edge g a b then Ok (remove_edge g a b) else Err ErrNotExists.
Proof. intros Ha. graph_cases; done. Qed.

(** Follow, Unfollow and Login act on the caller's follow set only. *)
Lemma follow_local u v g g' x :
  x <> u -> follow u v g = Ok g' -> following_of g' x = following_of g x.
Proof.
  intros Hx H. graph_cases; simplify_eq.
  rewrite following_of_add_edge. by rewrite decide_False.
Qed.

Lemma unfollow_local u v g g' x :
  x <> u -> unfollow u v g = Ok g' -> following_of g' x = following_of g x.
Proof.
  intros Hx H. graph_cases; simplify_eq.
  rewrite following_of_remove_edge. by rewrite decide_False.
Qed.

Lemma ensure_user_local u g b g' x :
  x <> u -> ensure_user u g = Ok (b, g') -> following_of g' x = following_of g x.
Proof.
  intros Hx. unfold ensure_user. destruct (String.eqb u ""); [done|].
  case_bool_decide; intros [= _ <-]; [done|].
  unfold following_of; simpl. by rewrite lookup_insert_ne.
Qed.

Lemma pair_step_users a b g op : users (pair_step a b g op) = users g.
Proof.
  unfold pair_step. destruct op; graph_cases; done.
Qed.

Lemma pair_step_edge a b g op :
  a ∈ users g -> b ∈ users g -> a <> b ->
  has_edge (pair_step a b g op) a b =
  match op with PFollow => true | PUnfollow => false end.
Proof.
  intros Ha Hb Hab.
  unfold pair_step. destruct op; graph_cases; try done;
    first [apply has_edge_spec | apply not_true_iff_false; rewrite has_edge_spec];
    rewrite ?following_of_add_edge, ?following_of_remove_edge, ?decide_True by done;
    set_solver.
Qed.

(** For every sequence of Follow/Unfollow operations on a pair of
    distinct registered users, the edge exists at the end exactly when
    the last operation of the sequence was a Follow (or, for the empty
    sequence, when it existed at the start): failed operations
    ([ALREADY_EXISTS], [NOT_EXISTS]) change nothing. *)
Theorem run_pair_edge (g : Graph) (a b : string) (ops : list PairOp) :
  a ∈ users g -> b ∈ users g -> a <> b ->
  has_edge (run_pair a b ops g) a b = expected_edge (has_edge g a b) ops.
Proof.
  unfold run_pair, expected_edge. revert g.
  induction ops as [|op ops IH]; intros g Ha Hb Hab; [done|]. simpl.
  rewrite IH by (rewrite ?pair_step_users; done).
  rewrite pair_step_edge by done. done.
Qed.

Lemma run_pair_edge_witness :
  "alice" ∈ users (mkGraph {["alice"; "bob"]} ∅) /\
  "bob" ∈ users (mkGraph {["alice"; "bob"]} ∅) /\ "alice" <> "bob" /\
  has_edge (run_pair "alice" "bob" [PFollow; PFollow; PUnfollow; PFollow]
              (mkGraph {["alice"; "bob"]} ∅)) "alice" "bob" = true.
Proof.
  assert (Ha : "alice" ∈ users (mkGraph {["alice"; "bob"]} ∅)) by set_solver.
  assert (Hb : "bob" ∈ users (mkGraph {["alice"; "bob"]} ∅)) by set_solver.
  split_and!; [done | done | discriminate |].
  rewrite (run_pair_edge _ _ _ _ Ha Hb) by discriminate. reflexivity.
Defined.

(** ** The view of one user

    What Follow and Unfollow by [u] read of the graph, and all they
    change of it: the registered users and [u]'s own follow set.
    Graphs with the same view for [u] answer [u]'s requests alike. *)
Definition gview_eq (u : string) (g g' : Graph) : Prop :=
  users g = users g' /\ following_of g u = following_of g' u.

#[export] Instance gview_eq_equiv u : Equivalence (gview_eq u).
Proof. unfold gview_eq. split; repeat intro; naive_solver congruence. Qed.

Lemma follow_users u v g g' : follow u v g = Ok g' -> users g' = users g.
Proof. intros H. graph_cases; by simplify_eq. Qed.

Lemma unfollow_users u v g g' : unfollow u v g = Ok g' -> users g' = users g.
Proof. intros H. graph_cases; by simplify_eq. Qed.

#[export] Instance follow_view u v : Proper (gview_eq u ==> result_rel (gview_eq u)) (follow u v).
Proof.
  intros g g' [Hu Hf]. unfold follow, user_exists, has_edge. rewrite Hu, Hf.
  repeat case_match; try done. split; [done|].
  by rewrite !following_of_add_edge, !decide_True, Hf.
Qed.

#[export] Instance unfollow_view u v : Proper (gview_eq u ==> result_rel (gview_eq u)) (unfollow u v).
Proof.
  intros g g' [Hu Hf]. unfold unfollow, user_exists, has_edge. rewrite Hu, Hf.
  repeat case_match; try done. split; [done|].
  by rewrite !following_of_remove_edge, !decide_True, Hf.
Qed.

(** Another user's Follow or Unfollow leaves [u]'s view as it was. *)
Lemma follow_other u u' v g g' : u' <> u -> follow u' v g = Ok g' -> gview_eq u g' g.
Proof.
  intros Hne H. split; [by apply follow_users in H|].
  apply (follow_local u' v g g' u); [congruence | done].
Qed.

Lemma unfollow_other u u' v g g' : u' <> u -> unfollow u' v g = Ok g' -> gview_eq u g' g.
Proof.
  intros Hne H. split; [by apply unfollow_users in H|].
  apply (unfollow_local u' v g g' u); [congruence | done].
Qed.
