(* ===== verification/Store.v ===== *)
(** * Store: the post store of the service

    Spec sections 3 ([Post]) and 4.3.  [Append(author, text)] stamps the
    post with the next value of a server-global logical clock;
    [PostsAfter(author, cursor)] returns the author's posts newer than
    the cursor in ascending time order.

    - [AbsStore] is the abstract specification: one global log in
      append order and the clock.
    - [PostStore] is the interface the timeline engine relies on: the
      two operations and a refinement relation to [AbsStore] with its
      laws ([PostStoreLaws]).
    - [AuthorStore] is the implementation the spec describes (one
      append log per author, spec 4.3 and 5: "per-author post log"),
      and its instance discharges the laws. *)

From stdpp Require Import base list sets gmap strings.
From S2P Require Import Prelude.


(** ** Data *)

Record Post := mkPost {
  author : string;
  text : string;
  ts : nat            (** logical time stamp, from 1 on *)
}.

#[export] Instance Post_eq_dec : EqDecision Post.
Proof. solve_decision. Defined.

(** The posts of [a] newer than cursor [c], as a predicate. *)
Definition by_after (a : string) (c : nat) (p : Post) : Prop :=
  author p = a /\ c < ts p.

#[export] Instance by_after_dec a c p : Decision (by_after a c p).
Proof. unfold by_after. apply _. Defined.

(** ** The abstract store *)

Record AbsStore := mkAbsStore {
  alog : list Post;   (** every post, in append order *)
  aclock : nat        (** the last time stamp handed out *)
}.

Definition abs_empty : AbsStore := mkAbsStore [] 0.

Definition abs_append (a t : string) (s : AbsStore) : Post * AbsStore :=
  let p := mkPost a t (S (aclock s)) in
  (p, mkAbsStore (alog s ++ [p]) (S (aclock s))).

Definition abs_posts_after (s : AbsStore) (a : string) (c : nat) : list Post :=
  filter (by_after a c) (alog s).

(** The invariant of the abstract store: the log is ascending in time
    and no stamp exceeds the clock. *)
Definition abs_wf (s : AbsStore) : Prop :=
  ascending ts (alog s) /\ forall p, p ∈ alog s -> ts p <= aclock s.

(** ** The interface *)

Class PostStore (S : Type) := {
  ps_empty : S;
  ps_append : string -> string -> S -> Post * S;
  ps_posts_after : S -> string -> nat -> list Post;
  ps_clock : S -> nat;
  ps_refines : S -> AbsStore -> Prop
}.

Class PostStoreLaws (S : Type) `{PostStore S} := {
  ps_refines_empty : ps_refines ps_empty abs_empty;
  ps_refines_append a t s A :
    ps_refines s A ->
    (ps_append a t s).1 = (abs_append a t A).1 /\
    ps_refines (ps_append a t s).2 (abs_append a t A).2;
  ps_refines_posts_after s A a c :
    ps_refines s A -> ps_posts_after s a c = abs_posts_after A a c;
  ps_refines_clock s A : ps_refines s A -> ps_clock s = aclock A;
  ps_refines_wf s A : ps_refines s A -> abs_wf A
}.

(** ** The implementation: one log per author *)

Record AuthorStore := mkAuthorStore {
  logs : gmap string (list Post);
  clock : nat
}.

Definition author_log (st : AuthorStore) (a : string) : list Post :=
  default [] (logs st !! a).

Definition store_empty : AuthorStore := mkAuthorStore ∅ 0.

(** [Append]: stamp with the next clock value, push on the author's
    log. *)
Definition append (a t : string) (st : AuthorStore) : Post * AuthorStore :=
  let p := mkPost a t (S (clock st)) in
  (p, mkAuthorStore (<[a := (author_log st a ++ [p])]> (logs st)) (S (clock st))).

(** [PostsAfter]: the author's log from the cursor on. *)
Definition posts_after (st : AuthorStore) (a : string) (c : nat) : list Post :=
  filter (fun p => c < ts p) (author_log st a).

(** The refinement relation: each author's log is the projection of
    the abstract log on that author, and the clocks agree. *)
Definition store_refines (st : AuthorStore) (A : AbsStore) : Prop :=
  abs_wf A /\ clock st = aclock A /\
  forall a, author_log st a = filter (fun p => author p = a) (alog A).

(** ** Lemmas *)

Lemma abs_wf_empty : abs_wf abs_empty.
Proof. split; [constructor | set_solver]. Qed.

Lemma abs_wf_append a t s : abs_wf s -> abs_wf (abs_append a t s).2.
Proof.
  intros [Hasc Hb]. unfold abs_append; simpl. split.
  - apply ascending_app. split_and!; [|done|].
    + intros x y Hx ->%list_elem_of_singleton. simpl. specialize (Hb x Hx). lia.
    + apply ascending_cons. split; [set_solver | constructor].
  - intros p [Hp| ->%list_elem_of_singleton]%elem_of_app; simpl; [|lia].
    specialize (Hb p Hp). lia.
Qed.

Lemma author_log_append a t st b :
  author_log (append a t st).2 b =
  if decide (a = b) then author_log st a ++ [mkPost a t (S (clock st))]
  else author_log st b.
Proof.
  unfold append, author_log at 1; simpl. rewrite lookup_insert. by case_decide.
Qed.

Lemma filter_by_author_after (l : list Post) a c :
  filter (fun p => c < ts p) (filter (fun p => author p = a) l) =
  filter (by_after a c) l.
Proof.
  rewrite list_filter_filter. apply list_filter_iff. unfold by_after. tauto.
Qed.

Lemma store_refines_append a t st A :
  store_refines st A ->
  (append a t st).1 = (abs_append a t A).1 /\
  store_refines (append a t st).2 (abs_append a t A).2.
Proof.
  intros (Hwf & Hc & Hl). split.
  - unfold append, abs_append; simpl. by rewrite Hc.
  - split_and!.
    + by apply abs_wf_append.
    + simpl. by rewrite Hc.
    + intros b. rewrite author_log_append, !Hl. simpl.
      rewrite filter_app, filter_cons, filter_nil, Hc. simpl.
      case_decide; subst; by rewrite ?app_nil_r.
Qed.

Lemma store_empty_refines : store_refines store_empty abs_empty.
Proof. split_and!; [apply abs_wf_empty | done | intros a; done]. Qed.

#[export] Instance AuthorStore_PostStore : PostStore AuthorStore := {
  ps_empty := store_empty;
  ps_append := append;
  ps_posts_after := posts_after;
  ps_clock := clock;
  ps_refines := store_refines
}.

#[export] Instance AuthorStore_laws : PostStoreLaws AuthorStore.
Proof.
  split.
  - apply store_empty_refines.
  - apply store_refines_append.
  - intros st A a c (_ & _ & Hl). simpl. unfold posts_after, abs_posts_after.
    by rewrite Hl, filter_by_author_after.
  - by intros st A (_ & ? & _).
  - by intros st A (? & _ & _).
Qed.

(** The abstract store is itself a [PostStore], refined by equality:
    runs of the implementation and of the specification can then be
    written with the same combinators. *)
#[export] Instance AbsStore_PostStore : PostStore AbsStore := {
  ps_empty := abs_empty;
  ps_append := abs_append;
  ps_posts_after := abs_posts_after;
  ps_clock := aclock;
  ps_refines := fun s A => s = A /\ abs_wf A
}.

(** ** Runs of appends *)

(** A client's [PostTimeline] stream: each (author, text) in order
    goes to [Append]; the acknowledgements are the stamped posts. *)
Fixpoint append_all {S} `{PostStore S} (msgs : list (string * string)) (s : S)
    : list Post * S :=
  match msgs with
  | [] => ([], s)
  | (a, t) :: ms =>
      let (p, s1) := ps_append a t s in
      let (ps, s2) := append_all ms s1 in
      (p :: ps, s2)
  end.

Lemma append_all_cons {S} `{PostStore S} a t ms (s : S) :
  append_all ((a, t) :: ms) s =
  ((ps_append a t s).1 :: (append_all ms (ps_append a t s).2).1,
   (append_all ms (ps_append a t s).2).2).
Proof.
  simpl. destruct (ps_append a t s) as [p s1]. simpl.
  by destruct (append_all ms s1).
Qed.

Section Runs.
  Context {S : Type} `{PostStoreLaws S}.

  (** A run of the implementation from a state that refines [A]
      returns the posts of the same run of the specification and ends
      in a state that refines the specification's. *)
Lemma append_all_refines msgs s A :
    ps_refines s A ->
    (append_all msgs s).1 = (append_all msgs A).1 /\
    ps_refines (append_all msgs s).2 (append_all msgs A).2.
  Proof.
    revert s A. induction msgs as [|[a t] ms IH]; intros s A HR; [by split|].
    rewrite !append_all_cons. destruct (ps_refines_append a t s A HR) as [Hp HR1].
    destruct (IH _ _ HR1) as [Hps HR2]. simpl. rewrite Hp, Hps. by split.
  Qed.
End Runs.

Lemma abs_append_all_spec msgs A :
  (append_all msgs A).1 =
    zip_with (fun '(a, t) n => mkPost a t n) msgs (seq (S (aclock A)) (length msgs)) /\
  aclock (append_all msgs A).2 = aclock A + length msgs /\
  alog (append_all msgs A).2 = alog A ++ (append_all msgs A).1.
Proof.
  revert A. induction msgs as [|[a t] ms IH]; intros A; simpl.
  - split_and!; [done | lia | by rewrite app_nil_r].
  - destruct (IH (mkAbsStore (alog A ++ [mkPost a t (S (aclock A))]) (S (aclock A))))
      as (H1 & H2 & H3).
    destruct (append_all ms _) as [ps A2]; simpl in *.
    rewrite H3, H1, H2, <- app_assoc. split_and!; [done | lia | done].
Qed.

(** Appending a sequence of posts (one author or several) stamps
    them with consecutive clock values starting after the store's
    clock, in append order: the stamps are strictly increasing, never
    collide, and each post carries its author and text. *)
Theorem append_all_stamps (msgs : list (string * string)) (st : AuthorStore) :
  map ts (append_all msgs st).1 = seq (S (clock st)) (length msgs) /\
  map (fun p => (author p, text p)) (append_all msgs st).1 = msgs /\
  ascending ts (append_all msgs st).1.
Proof.
  revert st. induction msgs as [|[a t] ms IH]; intros st.
  - simpl. split_and!; [done | done | constructor].
  - rewrite append_all_cons. change (@ps_append AuthorStore _ a t st) with (append a t st).
    cbn [fst snd map]. destruct (IH (append a t st).2) as (H1 & H2 & H3).
    split_and!; [by rewrite H1 | by rewrite H2 |].
    apply ascending_cons. split; [|done].
    intros y Hy%list_elem_of_In. apply (in_map ts), list_elem_of_In in Hy.
    rewrite H1 in Hy. apply elem_of_seq in Hy. simpl in *. lia.
Qed.

(** Refinement of the post store.  After any sequence of appends
    from the empty store, the per-author implementation answers every
    [PostsAfter(a, c)] exactly as filtering the global log of the
    specification by author [a] and stamps after [c]. *)
Theorem author_store_refinement (msgs : list (string * string)) (a : string) (c : nat) :
  (append_all msgs store_empty).1 = (append_all msgs abs_empty).1 /\
  posts_after (append_all msgs store_empty).2 a c =
    filter (by_after a c) (alog (append_all msgs abs_empty).2).
Proof.
  pose proof (append_all_refines msgs store_empty abs_empty) as Hrun.
  destruct (Hrun store_empty_refines) as [Hps HR].
  split; [done|]. apply (ps_refines_posts_after _ _ a c HR).
Qed.

(** The answer of [PostsAfter] in a refining state is ascending, by
    the right author and after the cursor (spec 4.3). *)
Lemma ps_posts_after_spec {S} `{PostStoreLaws S} (s : S) A a c :
  ps_refines s A ->
  ascending ts (ps_posts_after s a c) /\
  forall p, p ∈ ps_posts_after s a c <-> p ∈ alog A /\ author p = a /\ c < ts p.
Proof.
  intros HR. rewrite (ps_refines_posts_after _ _ a c HR).
  destruct (ps_refines_wf _ _ HR) as [Hasc _]. split.
  - by apply ascending_filter.
  - intros p. unfold abs_posts_after, by_after. rewrite list_elem_of_filter. tauto.
Qed.
