(* ===== verification/Timeline.v ===== *)
(** * Timeline: the timeline merge engine

    Spec section 4.4.  On each delivery cycle the engine takes the
    subscriber's current followee set (late bound), fetches
    [PostsAfter(author, cursor)] for the subscriber and every followee,
    merges these ascending streams into one ascending stream (a k-way
    merge, folded from a stable two-way merge), delivers it and moves
    the cursor to the stamp of the last post delivered.

    The engine is written against the [PostStore] interface of
    [Store]: every theorem here holds for any store that satisfies
    [PostStoreLaws], the per-author store among them.  The policy for a
    newly followed author, which the spec leaves open (4.4, 9), is the
    one a single session cursor gives: only the author's posts newer
    than the cursor are delivered, no backfill. *)

From stdpp Require Import base list sets gmap strings.
From S2P Require Import Prelude Store.

(** ** The merge *)

(** Stable two-way merge by time stamp: on equal stamps the left
    stream goes first.  The inner fixpoint walks the right stream, so
    both recursions are structural. *)
Fixpoint merge2 (l1 : list Post) : list Post -> list Post :=
  match l1 with
  | [] => fun l2 => l2
  | x :: l1' =>
      fix merge_inner (l2 : list Post) : list Post :=
        match l2 with
        | [] => x :: l1'
        | y :: l2' =>
            if Nat.leb (ts x) (ts y) then x :: merge2 l1' l2
            else y :: merge_inner l2'
        end
  end.

(** The k-way merge: fold the two-way merge over the streams. *)
Definition kmerge (streams : list (list Post)) : list Post :=
  foldr merge2 [] streams.

(** The authors a subscriber reads: itself and its followees. *)
Definition sources (u : string) (fs : gset string) : gset string :=
  {[u]} ∪ fs.

Section Engine.
  Context {S : Type} `{PostStoreLaws S}.

  (** One stream per source author, from the cursor on. *)
Definition fetch_streams (s : S) (cursor : nat) (authors : list string)
      : list (list Post) :=
    map (fun a => ps_posts_after s a cursor) authors.

  (** One delivery cycle for subscriber [u] following [fs]: the batch
      to send, and the new cursor (unchanged when nothing is new). *)
Definition timeline_cycle (s : S) (u : string) (fs : gset string) (cursor : nat)
      : list Post * nat :=
    let batch := kmerge (fetch_streams s cursor (elements (sources u fs))) in
    (batch, match last batch with Some p => ts p | None => cursor end).
End Engine.

(** The reference the engine is compared with: the posts of the
    global log by one of [srcs], after [cursor], in log order. *)
Definition timeline_ref (L : list Post) (srcs : gset string) (cursor : nat) : list Post :=
  filter (fun p => author p ∈ srcs /\ cursor < ts p) L.

(** ** Lemmas on the two-way merge *)

Lemma merge2_nil_r l : merge2 l [] = l.
Proof. by destruct l. Qed.

Lemma merge2_cons_cons x l1 y l2 :
  merge2 (x :: l1) (y :: l2) =
  if Nat.leb (ts x) (ts y) then x :: merge2 l1 (y :: l2)
  else y :: merge2 (x :: l1) l2.
Proof. done. Qed.

Lemma merge2_elem_of l1 l2 z : z ∈ merge2 l1 l2 <-> z ∈ l1 \/ z ∈ l2.
Proof.
  revert l2. induction l1 as [|x l1 IH1]; intros l2; [set_solver|].
  induction l2 as [|y l2 IH2]; [rewrite merge2_nil_r; set_solver|].
  rewrite merge2_cons_cons. destruct (Nat.leb _ _);
    rewrite elem_of_cons, ?IH1, ?IH2, !elem_of_cons; tauto.
Qed.

Lemma merge2_ascending l1 l2 :
  ascending ts l1 -> ascending ts l2 ->
  (forall x y, x ∈ l1 -> y ∈ l2 -> ts x <> ts y) ->
  ascending ts (merge2 l1 l2).
Proof.
  revert l2. induction l1 as [|x l1 IH1]; intros l2; [done|].
  induction l2 as [|y l2 IH2]; intros H1 H2 Hd; [by rewrite merge2_nil_r|].
  rewrite merge2_cons_cons. destruct (Nat.leb_spec (ts x) (ts y)) as [Hle|Hlt].
  - apply ascending_cons. split.
    + intros z [Hz|Hz]%merge2_elem_of.
      * by apply ascending_cons in H1 as [? _]; auto.
      * assert (ts x <> ts z) by (apply Hd; set_solver).
        apply elem_of_cons in Hz as [->|Hz]; [lia|].
        apply ascending_cons in H2 as [Hy _]. specialize (Hy z Hz). lia.
    + apply IH1; [eauto using ascending_tail | done |]. set_solver +Hd.
  - apply ascending_cons. split.
    + intros z [Hz|Hz]%merge2_elem_of.
      * apply elem_of_cons in Hz as [->|Hz]; [lia|].
        apply ascending_cons in H1 as [Hx _]. specialize (Hx z Hz). lia.
      * apply ascending_cons in H2 as [Hy _]. by apply Hy.
    + apply IH2; [done | eauto using ascending_tail |]. set_solver +Hd.
Qed.

(** Merging the posts of two disjoint selections of an ascending log
    gives the selection of their union: the merge never reorders nor
    drops nor repeats. *)
Lemma merge2_filter_disjoint (L : list Post) (P Q : Post -> Prop)
    `{forall p, Decision (P p)} `{forall p, Decision (Q p)} :
  ascending ts L -> (forall p, P p -> Q p -> False) ->
  merge2 (filter P L) (filter Q L) = filter (fun p => P p \/ Q p) L.
Proof.
  intros HL Hdisj. apply (ascending_unique ts).
  - apply merge2_ascending; [by apply ascending_filter..|].
    intros x y [Hx HxL]%list_elem_of_filter [Hy HyL]%list_elem_of_filter Hxy.
    assert (x = y) as <- by by apply (ascending_key_inj ts L).
    eauto.
  - by apply ascending_filter.
  - intros z. rewrite merge2_elem_of, !list_elem_of_filter. tauto.
Qed.

(** ** Lemmas on the k-way merge *)

Lemma kmerge_filter (L : list Post) (authors : list string) (c : nat) :
  ascending ts L -> NoDup authors ->
  kmerge (map (fun a => filter (by_after a c) L) authors) =
  filter (fun p => author p ∈ authors /\ c < ts p) L.
Proof.
  intros HL. induction authors as [|a authors IH]; intros Hnd; simpl.
  - symmetry. apply filter_none. set_solver.
  - apply NoDup_cons in Hnd as [Ha Hnd].
    rewrite IH by done. rewrite merge2_filter_disjoint by
      (done || (unfold by_after; intros p [-> _] [? _]; done)).
    apply list_filter_iff. intros p. unfold by_after.
    rewrite elem_of_cons. naive_solver.
Qed.

(** ** Theorems *)

Section EngineTheorems.
  Context {S : Type} `{PostStoreLaws S}.

Lemma fetch_streams_refines (s : S) A c authors :
    ps_refines s A ->
    fetch_streams s c authors = map (fun a => filter (by_after a c) (alog A)) authors.
  Proof.
    intros HR. unfold fetch_streams. apply map_ext. intros a.
    by rewrite (ps_refines_posts_after s A a c HR).
  Qed.

  (** Equivalence of the k-way merge with its reference.  Merging
      the per-author streams [PostsAfter(a, cursor)] of a set of
      authors gives exactly the posts of the global log by those
      authors and newer than the cursor, in log order: the output is
      time-ordered, and nothing is dropped or repeated. *)
Theorem kmerge_equiv (s : S) (A : AbsStore) (srcs : gset string) (cursor : nat) :
    ps_refines s A ->
    kmerge (fetch_streams s cursor (elements srcs)) = timeline_ref (alog A) srcs cursor.
  Proof.
    intros HR. destruct (ps_refines_wf s A HR) as [HL _].
    rewrite (fetch_streams_refines s A) by done.
    rewrite kmerge_filter by (done || apply NoDup_elements).
    apply list_filter_iff. intros p. by rewrite elem_of_elements.
  Qed.

Lemma timeline_ref_ascending A srcs c :
    abs_wf A -> ascending ts (timeline_ref (alog A) srcs c).
  Proof. intros [HL _]. by apply ascending_filter. Qed.

Lemma timeline_cycle_batch (s : S) A u fs c :
    ps_refines s A ->
    (timeline_cycle s u fs c).1 = timeline_ref (alog A) (sources u fs) c.
  Proof. intros HR. apply (kmerge_equiv s A). done. Qed.

Lemma last_cursor_bound (batch : list Post) c :
    ascending ts batch -> (forall p, p ∈ batch -> c < ts p) ->
    let c' := match last batch with Some p => ts p | None => c end in
    c <= c' /\ (forall p, p ∈ batch -> ts p <= c') /\ (batch = [] -> c' = c).
  Proof.
    intros Hasc Hgt. simpl.
    destruct (last batch) as [q|] eqn:Hq.
    - assert (q ∈ batch) as Hqin by by apply last_Some_elem_of.
      split_and!.
      + specialize (Hgt q Hqin). lia.
      + by apply (ascending_last_max ts).
      + intros ->. done.
    - apply last_None in Hq as ->. split_and!; [done | set_solver | done].
  Qed.

  (** One delivery cycle.  In a store that refines the global log,
      the batch a cycle sends is exactly the posts of the subscriber
      and its current followees newer than the cursor (no omission, no
      extra post), in strictly ascending time order; the new cursor is
      the stamp of the last post sent, so it covers the whole batch,
      and stays put on an empty batch. *)
Theorem timeline_cycle_spec (s : S) (A : AbsStore) (u : string) (fs : gset string)
      (cursor : nat) :
    ps_refines s A ->
    let '(batch, cursor') := timeline_cycle s u fs cursor in
    (forall p, p ∈ batch <->
       p ∈ alog A /\ (author p = u \/ author p ∈ fs) /\ cursor < ts p) /\
    ascending ts batch /\
    cursor <= cursor' /\ (forall p, p ∈ batch -> ts p <= cursor') /\
    (batch = [] -> cursor' = cursor).
  Proof.
    intros HR. pose proof (timeline_cycle_batch s A u fs cursor HR) as Hb.
    pose proof (ps_refines_wf s A HR) as Hwf.
    unfold timeline_cycle in *. simpl in Hb. rewrite Hb.
    assert (forall p, p ∈ timeline_ref (alog A) (sources u fs) cursor <->
              p ∈ alog A /\ (author p = u \/ author p ∈ fs) /\ cursor < ts p) as Hm.
    { intros p. unfold timeline_ref, sources.
      rewrite list_elem_of_filter, elem_of_union, elem_of_singleton. tauto. }
    pose proof (timeline_ref_ascending A (sources u fs) cursor Hwf) as Hasc.
    destruct (last_cursor_bound (timeline_ref (alog A) (sources u fs) cursor) cursor Hasc)
      as (Hc1 & Hc2 & Hc3); [intros p ?%Hm; tauto|].
    split_and!; done.
  Qed.
End EngineTheorems.

(** The instance of the merge and cycle theorems: a store after three
    appends by two authors, alice reading herself and bob from the
    start; carol's post is not in the batch. *)
Definition demo_msgs : list (string * string) :=
  [("bob", "hello"); ("carol", "hi"); ("alice", "me too")]%string.

Lemma demo_refines :
  ps_refines (append_all demo_msgs store_empty).2 (append_all demo_msgs abs_empty).2.
Proof.
  pose proof (append_all_refines demo_msgs store_empty abs_empty) as Hrun.
  apply (Hrun store_empty_refines).
Qed.

Lemma kmerge_equiv_witness :
  kmerge (fetch_streams (append_all demo_msgs store_empty).2 0
            (elements (sources "alice" {["bob"]})))
  = timeline_ref (alog (append_all demo_msgs abs_empty).2) (sources "alice" {["bob"]}) 0 /\
  timeline_ref (alog (append_all demo_msgs abs_empty).2) (sources "alice" {["bob"]}) 0
  = [mkPost "bob" "hello" 1; mkPost "alice" "me too" 3]%string.
Proof.
  split.
  - apply (kmerge_equiv _ _ _ _ demo_refines).
  - vm_compute. reflexivity.
Defined.

Lemma timeline_cycle_spec_witness :
  let '(batch, cursor') :=
    timeline_cycle (append_all demo_msgs store_empty).2 "alice" {["bob"]} 0 in
  (forall p, p ∈ batch <->
     p ∈ alog (append_all demo_msgs abs_empty).2 /\
     (author p = "alice" \/ author p ∈ ({["bob"]} : gset string)) /\ 0 < ts p) /\
  ascending ts batch /\ 0 <= cursor' /\ (forall p, p ∈ batch -> ts p <= cursor') /\
  (batch = [] -> cursor' = 0).
Proof.
  exact (timeline_cycle_spec _ _ "alice" {["bob"]} 0 demo_refines).
Defined.
