(* ===== verification/Service.v ===== *)
(** * Service: the service facade, sessions and interleavings

    Spec sections 4.5, 5, 6 and 7.  The service owns one state object
    (spec 9: "explicitly owned service-state object") that joins the
    follow graph ([Graph]) and the post store ([Store]), and a session
    per client connection, keyed by a connection id and recording the
    user that logged in on it.  Each RPC is a handler that maps the components' error
    values to the wire status taxonomy ([Status]); this is the only
    place where that mapping happens.

    Sessions follow the protocol state machine
    [DISCONNECTED -> LOGGED_IN -> COMMAND_MODE -> STREAMING_MODE]:
    [phase_step] is the step relation and [next_phase] the executable
    function the handlers use.  Concurrent clients are modelled by
    interleaving: a run of the service is any sequence of [Event]s
    from any clients, executed one at a time by [handle]; the spec's
    per-entity locking makes each handler atomic. *)

From stdpp Require Import base list sets gmap strings.
From S2P Require Import Prelude Status Graph Store Timeline.

(** ** Error mapping (spec 7) *)

Definition status_of_error (e : GraphError) : IStatus :=
  match e with
  | ErrAlreadyExists => FAILURE_ALREADY_EXISTS
  | ErrNotExists => FAILURE_NOT_EXISTS
  | ErrInvalidUsername => FAILURE_INVALID_USERNAME
  | ErrInvalid => FAILURE_INVALID
  end.

(** ** Sessions and the protocol state machine (spec 4.5) *)

Inductive Phase := DISCONNECTED | LOGGED_IN | COMMAND_MODE | STREAMING_MODE.

#[export] Instance Phase_eq_dec : EqDecision Phase.
Proof. solve_decision. Defined.

(** What a client asks of its session. *)
Inductive Cmd :=
  | CLogin (ok : bool)      (** a Login RPC, and whether it was accepted *)
  | CEnterCommands          (** the client's command loop starts *)
  | CCommand                (** Follow, Unfollow or List *)
  | CTimeline               (** the TIMELINE command: enter streaming *)
  | CStream.                (** a PostTimeline message or a delivery cycle *)

Inductive phase_step : Phase -> Cmd -> Phase -> Prop :=
  | ps_login_ok : phase_step DISCONNECTED (CLogin true) LOGGED_IN
  | ps_login_fail : phase_step DISCONNECTED (CLogin false) DISCONNECTED
  | ps_enter : phase_step LOGGED_IN CEnterCommands COMMAND_MODE
  | ps_command_logged : phase_step LOGGED_IN CCommand LOGGED_IN
  | ps_command : phase_step COMMAND_MODE CCommand COMMAND_MODE
  | ps_timeline_logged : phase_step LOGGED_IN CTimeline STREAMING_MODE
  | ps_timeline : phase_step COMMAND_MODE CTimeline STREAMING_MODE
  | ps_stream : phase_step STREAMING_MODE CStream STREAMING_MODE.

(** The executable transition function: [None] when the command is
    not allowed in the phase. *)
Definition next_phase (ph : Phase) (c : Cmd) : option Phase :=
  match ph, c with
  | DISCONNECTED, CLogin true => Some LOGGED_IN
  | DISCONNECTED, CLogin false => Some DISCONNECTED
  | LOGGED_IN, CEnterCommands => Some COMMAND_MODE
  | (LOGGED_IN | COMMAND_MODE) as p, CCommand => Some p
  | (LOGGED_IN | COMMAND_MODE), CTimeline => Some STREAMING_MODE
  | STREAMING_MODE, CStream => Some STREAMING_MODE
  | _, _ => None
  end.

(** One client connection (a [tsc] process): the user it logged in
    as, its protocol phase, and its timeline stream. *)
Record Session := mkSession {
  suser : string;
  phase : Phase;
  cursor : nat;              (** TimelineCursor: last stamp delivered *)
  delivered : list Post      (** everything sent on the stream so far *)
}.

Definition new_session : Session := mkSession ""%string DISCONNECTED 0 [].

(** ** The service state *)

Record World := mkWorld {
  graph : Graph;
  store : AuthorStore;
  sessions : gmap nat Session    (** by session (connection) id *)
}.

Definition init_world : World := mkWorld empty_graph store_empty ∅.

Definition session_of (w : World) (sid : nat) : Session :=
  default new_session (sessions w !! sid).

Definition set_session (w : World) (sid : nat) (s : Session) : World :=
  mkWorld (graph w) (store w) (<[sid := s]> (sessions w)).

(** ** Requests and replies (spec 6) *)

(** A request of the client on connection [sid]; the commands act
    for the user the connection logged in as. *)
Inductive Event :=
  | ELogin (sid : nat) (u : string)
  | EEnterCommands (sid : nat)
  | EFollow (sid : nat) (v : string)
  | EUnfollow (sid : nat) (v : string)
  | EList (sid : nat)
  | ETimeline (sid : nat)
  | EPost (sid : nat) (t : string)   (** one message of a PostTimeline stream *)
  | ECycle (sid : nat).              (** one delivery cycle of GetTimeline *)

Inductive Reply :=
  | RStatus (s : IStatus)
  | RList (all_users following_users : list string)
  | RBatch (posts : list Post)
  | RRejected.                  (** the request is not valid in the session's phase *)

(** ** Handlers *)

(** Run [k] in the phase the command leads to, or reject the request
    when the session's phase does not allow it. *)
Definition guard (w : World) (sid : nat) (c : Cmd) (k : Phase -> World * Reply)
    : World * Reply :=
  match next_phase (phase (session_of w sid)) c with
  | None => (w, RRejected)
  | Some ph => k ph
  end.

(** [Login]: a new user is [SUCCESS] (code "0"), an existing one
    [FAILURE_ALREADY_EXISTS] (code "1"): both open the session for the
    user; the empty name is [FAILURE_INVALID_USERNAME] and leaves the
    session closed. *)
Definition handle_login (sid : nat) (u : string) (w : World) : World * Reply :=
  let r := ensure_user u (graph w) in
  guard w sid (CLogin (is_ok r)) (fun ph =>
    match r with
    | Err e => (w, RStatus (status_of_error e))
    | Ok (created, g') =>
        (set_session (mkWorld g' (store w) (sessions w)) sid (mkSession u ph 0 []),
         RStatus (if created then SUCCESS else FAILURE_ALREADY_EXISTS))
    end).

Definition handle_enter (sid : nat) (w : World) : World * Reply :=
  guard w sid CEnterCommands (fun ph =>
    let s := session_of w sid in
    (set_session w sid (mkSession (suser s) ph (cursor s) (delivered s)), RStatus SUCCESS)).

Definition handle_follow (sid : nat) (v : string) (w : World) : World * Reply :=
  guard w sid CCommand (fun _ =>
    match follow (suser (session_of w sid)) v (graph w) with
    | Err e => (w, RStatus (status_of_error e))
    | Ok g' => (mkWorld g' (store w) (sessions w), RStatus SUCCESS)
    end).

Definition handle_unfollow (sid : nat) (v : string) (w : World) : World * Reply :=
  guard w sid CCommand (fun _ =>
    match unfollow (suser (session_of w sid)) v (graph w) with
    | Err e => (w, RStatus (status_of_error e))
    | Ok g' => (mkWorld g' (store w) (sessions w), RStatus SUCCESS)
    end).

Definition handle_list (sid : nat) (w : World) : World * Reply :=
  guard w sid CCommand (fun _ =>
    match list_users (suser (session_of w sid)) (graph w) with
    | Err e => (w, RStatus (status_of_error e))
    | Ok (all, fol) => (w, RList (elements all) (elements fol))
    end).

(** Entering timeline mode starts the stream's cursor at the current
    clock: the feed shows what is posted from now on (spec 4.4). *)
Definition handle_timeline (sid : nat) (w : World) : World * Reply :=
  guard w sid CTimeline (fun ph =>
    (set_session w sid (mkSession (suser (session_of w sid)) ph (clock (store w)) []),
     RStatus SUCCESS)).

(** One message of the client's PostTimeline stream: the post is
    appended under the session's user, and acknowledged. *)
Definition handle_post (sid : nat) (t : string) (w : World) : World * Reply :=
  guard w sid CStream (fun _ =>
    let st' := (append (suser (session_of w sid)) t (store w)).2 in
    (mkWorld (graph w) st' (sessions w), RStatus SUCCESS)).

(** One GetTimeline delivery cycle: the engine runs on the user's
    current follow set (late bound), the batch is sent and appended to
    what the session has delivered, and the cursor moves. *)
Definition handle_cycle (sid : nat) (w : World) : World * Reply :=
  guard w sid CStream (fun ph =>
    let s := session_of w sid in
    let u := suser s in
    let '(batch, c') := timeline_cycle (store w) u (following_of (graph w) u) (cursor s) in
    (set_session w sid (mkSession u ph c' (delivered s ++ batch)), RBatch batch)).

Definition handle (w : World) (e : Event) : World * Reply :=
  match e with
  | ELogin sid u => handle_login sid u w
  | EEnterCommands sid => handle_enter sid w
  | EFollow sid v => handle_follow sid v w
  | EUnfollow sid v => handle_unfollow sid v w
  | EList sid => handle_list sid w
  | ETimeline sid => handle_timeline sid w
  | EPost sid t => handle_post sid t w
  | ECycle sid => handle_cycle sid w
  end.

(** A run: the events of all clients in the order the service
    executes them, with the replies in the same order. *)
Fixpoint run (w : World) (es : list Event) : World * list Reply :=
  match es with
  | [] => (w, [])
  | e :: es' =>
      let (w1, r) := handle w e in
      let (w2, rs) := run w1 es' in
      (w2, r :: rs)
  end.

(** ** The service invariant *)

(** A session's stream is strictly ascending, every post on it is in
    the global log and not newer than the cursor, and nothing is
    delivered before the session streams. *)
Definition session_wf (A : AbsStore) (s : Session) : Prop :=
  ascending ts (delivered s) /\
  (forall p, p ∈ delivered s -> ts p <= cursor s /\ p ∈ alog A) /\
  (phase s <> STREAMING_MODE -> delivered s = []).

Definition world_wf (w : World) : Prop :=
  graph_wf (graph w) /\
  exists A, store_refines (store w) A /\
    forall u s, sessions w !! u = Some s -> session_wf A s.

(** ** Helper lemmas *)

Lemma guard_cases w u c k :
  guard w u c k = (w, RRejected) \/
  exists ph, next_phase (phase (session_of w u)) c = Some ph /\ guard w u c k = k ph.
Proof. unfold guard. destruct (next_phase _ _); eauto. Qed.

Lemma next_phase_stream_inv ph ph' : next_phase ph CStream = Some ph' ->
  ph' = STREAMING_MODE /\ ph = STREAMING_MODE.
Proof. destruct ph; simpl; intros; simplify_eq; auto. Qed.

Lemma session_of_set w u s v :
  session_of (set_session w u s) v = if decide (u = v) then s else session_of w v.
Proof. unfold session_of, set_session; simpl. rewrite lookup_insert. by case_decide. Qed.

Lemma new_session_wf A : session_wf A new_session.
Proof. split_and!; [constructor | set_solver | done]. Qed.

Lemma session_wf_mono A A' s :
  (forall p, p ∈ alog A -> p ∈ alog A') -> session_wf A s -> session_wf A' s.
Proof. intros Hsub (?&Hd&?). split_and!; [done | | done]. naive_solver. Qed.

Definition sessions_wf (A : AbsStore) (w : World) : Prop :=
  forall u s, sessions w !! u = Some s -> session_wf A s.

Lemma sessions_wf_session_of A w u : sessions_wf A w -> session_wf A (session_of w u).
Proof.
  unfold session_of. intros Hs. destruct (sessions w !! u) eqn:E; simpl;
    eauto using new_session_wf.
Qed.

Lemma sessions_wf_set A w u s :
  sessions_wf A w -> session_wf A s -> sessions_wf A (set_session w u s).
Proof.
  intros Hs Hn v s'. unfold set_session; simpl. rewrite lookup_insert.
  case_decide; [intros [=<-]; done | apply Hs].
Qed.

Lemma world_wf_intro g st ss A :
  graph_wf g -> store_refines st A -> sessions_wf A (mkWorld g st ss) ->
  world_wf (mkWorld g st ss).
Proof. intros ???. split; [done|]. by exists A. Qed.

(** The delivery step keeps the session invariant: the new batch is
    ascending, newer than the old cursor, inside the log. *)
Lemma cycle_session_wf (st : AuthorStore) A u fs s su :
  store_refines st A -> session_wf A s -> phase s = STREAMING_MODE ->
  let '(batch, c') := timeline_cycle st u fs (cursor s) in
  session_wf A (mkSession su STREAMING_MODE c' (delivered s ++ batch)).
Proof.
  intros HR (Hasc & Hd & _) Hph.
  pose proof (timeline_cycle_spec (S:=AuthorStore) st A u fs (cursor s) HR) as Hc.
  destruct (timeline_cycle st u fs (cursor s)) as [batch c'].
  destruct Hc as (Hm & Hb & Hcc & Hle & _).
  split_and!; simpl; [| |done].
  - apply ascending_app. split_and!; [|done..].
    intros x y Hx Hy. apply Hm in Hy. specialize (Hd x Hx). lia.
  - intros p [Hp|Hp]%elem_of_app.
    + specialize (Hd p Hp). split; [lia | tauto].
    + split; [by apply Hle | by apply Hm].
Qed.

(** ** The invariant is preserved *)

Lemma guard_prop (P : World * Reply -> Prop) w u c k :
  P (w, RRejected) ->
  (forall ph, next_phase (phase (session_of w u)) c = Some ph -> P (k ph)) ->
  P (guard w u c k).
Proof. unfold guard. destruct (next_phase _ _); auto. Qed.

Lemma handle_login_wf sid u w : world_wf w -> world_wf (handle_login sid u w).1.
Proof.
  intros Hw. apply (guard_prop (fun r => world_wf r.1)); [done|]. intros ph _.
  destruct Hw as (Hg & A & HR & Hs).
  destruct (ensure_user u (graph w)) as [[created g']|e] eqn:E; [|split; eauto].
  destruct w as [g st ss]. apply (world_wf_intro _ _ _ A); [|done|].
  - eapply (proj2 (proj2 (graph_ops_wf g Hg))); eauto.
  - apply (sessions_wf_set A (mkWorld g' st ss)); [done|].
    split_and!; [constructor | set_solver | done].
Qed.

Lemma handle_graph_wf w (op : Graph -> result GraphError Graph) :
  (forall g', op (graph w) = Ok g' -> graph_wf (graph w) -> graph_wf g') ->
  world_wf w ->
  world_wf (match op (graph w) with
            | Err e => (w, RStatus (status_of_error e))
            | Ok g' => (mkWorld g' (store w) (sessions w), RStatus SUCCESS)
            end).1.
Proof.
  intros Hop Hw. destruct (op (graph w)) as [g'|e] eqn:E; [|done].
  destruct Hw as (Hg & A & HR & Hs). split; [by apply Hop|]. by exists A.
Qed.

Lemma handle_session_wf w u s :
  world_wf w ->
  (forall A, store_refines (store w) A -> sessions_wf A w -> session_wf A s) ->
  world_wf (set_session w u s).
Proof.
  intros (Hg & A & HR & Hs) Hn. split; [done|]. exists A. split; [done|].
  apply sessions_wf_set; auto.
Qed.

(** The service invariant holds after every request of every
    client: the follow graph stays well formed, the store refines a
    global log, and every session's stream is strictly ascending,
    inside the log and behind its cursor. *)
Theorem handle_wf (w : World) (e : Event) : world_wf w -> world_wf (handle w e).1.
Proof.
  intros Hw. destruct e as [sid u|sid|sid v|sid v|sid|sid|sid t|sid]; simpl.
  - by apply handle_login_wf.
  - apply (guard_prop (fun r => world_wf r.1)); [done|]. intros ph Hph.
    apply handle_session_wf; [done|]. intros A _ Hs.
    destruct (sessions_wf_session_of A w sid Hs) as (?&?&Hnd).
    split_and!; [done..|]. intros Hns. apply Hnd. intros Hst.
    rewrite Hst in Hph. discriminate.
  - apply (guard_prop (fun r => world_wf r.1)); [done|]. intros ph _.
    apply handle_graph_wf; [|done]. intros g' Hf Hg.
    eapply (proj1 (graph_ops_wf _ Hg)); eauto.
  - apply (guard_prop (fun r => world_wf r.1)); [done|]. intros ph _.
    apply handle_graph_wf; [|done]. intros g' Hf Hg.
    eapply (proj1 (proj2 (graph_ops_wf _ Hg))); eauto.
  - apply (guard_prop (fun r => world_wf r.1)); [done|]. intros ph _.
    by destruct (list_users _ (graph w)) as [[]|].
  - apply (guard_prop (fun r => world_wf r.1)); [done|]. intros ph _.
    apply handle_session_wf; [done|]. intros A _ _.
    split_and!; [constructor | set_solver | done].
  - apply (guard_prop (fun r => world_wf r.1)); [done|]. intros ph _.
    destruct Hw as (Hg & A & HR & Hs). split; [done|].
    set (u := suser (session_of w sid)).
    destruct (store_refines_append u t (store w) A HR) as [_ HR'].
    exists (abs_append u t A).2. split; [done|].
    intros v s Hv. apply (session_wf_mono A); [|by apply (Hs v)].
    intros p Hp. simpl. set_solver.
  - apply (guard_prop (fun r => world_wf r.1)); [done|]. intros ph Hph.
    apply next_phase_stream_inv in Hph as [-> Hst].
    destruct Hw as (Hg & A & HR & Hs).
    set (u := suser (session_of w sid)).
    pose proof (cycle_session_wf (store w) A u (following_of (graph w) u)
                  (session_of w sid) u HR (sessions_wf_session_of A w sid Hs) Hst) as Hc.
    unfold timeline_cycle in *. simpl in *.
    split; [done|]. exists A. split; [done|]. by apply (sessions_wf_set A w sid).
Qed.

Lemma init_world_wf : world_wf init_world.
Proof.
  split; [intros ??; simpl; by rewrite lookup_empty|].
  exists abs_empty. split; [apply store_empty_refines|]. intros ??; simpl.
  by rewrite lookup_empty.
Qed.

Lemma run_cons w e es :
  run w (e :: es) = ((run (handle w e).1 es).1, (handle w e).2 :: (run (handle w e).1 es).2).
Proof. simpl. destruct (handle w e) as [w1 r]. simpl. by destruct (run w1 es). Qed.

Lemma run_wf w es : world_wf w -> world_wf (run w es).1.
Proof.
  revert w. induction es as [|e es IH]; intros w Hw; [done|].
  rewrite run_cons. simpl. apply IH, handle_wf, Hw.
Qed.

Lemma world_wf_session w sid :
  world_wf w -> exists A, session_wf A (session_of w sid).
Proof. intros (_ & A & _ & Hs). exists A. by apply sessions_wf_session_of. Qed.

(** Ordering and deduplication under concurrency.  For every
    interleaving of requests of all clients (logins, follow changes,
    posts, delivery cycles) executed from the initial state, the
    stream each session has received is in strictly ascending time
    order, hence contains no post twice. *)
Theorem stream_ascending (es : list Event) (sid : nat) :
  ascending ts (delivered (session_of (run init_world es).1 sid)) /\
  NoDup (delivered (session_of (run init_world es).1 sid)).
Proof.
  destruct (world_wf_session _ sid (run_wf init_world es init_world_wf))
    as (A & Hasc & _ & _).
  split; [done | by apply (ascending_NoDup ts)].
Qed.

(** No retraction.  Whatever request the service executes next,
    what a session has already been sent stays a prefix of what it has
    been sent afterwards. *)
Theorem delivered_prefix (w : World) (e : Event) (sid : nat) :
  world_wf w ->
  exists more, delivered (session_of (handle w e).1 sid) =
               delivered (session_of w sid) ++ more.
Proof.
  intros Hw. destruct (world_wf_session w sid Hw) as (A & _ & _ & Hnd).
  destruct e as [v u|v|v x|v x|v|v|v t|v]; simpl;
    apply (guard_prop (fun r => exists more, delivered (session_of r.1 sid) =
                                            delivered (session_of w sid) ++ more));
    try (exists []; by rewrite app_nil_r); intros ph Hph.
  - destruct (ensure_user u (graph w)) as [[c g']|]; [|exists []; by rewrite app_nil_r].
    simpl. rewrite session_of_set.
    case_decide; [subst|exists []; by rewrite app_nil_r].
    destruct (phase (session_of w sid)); simplify_eq/=; rewrite Hnd by done; by exists [].
  - simpl. rewrite session_of_set. case_decide; subst; simpl; exists []; by rewrite app_nil_r.
  - destruct (follow _ x (graph w)); exists []; by rewrite app_nil_r.
  - destruct (unfollow _ x (graph w)); exists []; by rewrite app_nil_r.
  - destruct (list_users _ (graph w)) as [[]|]; exists []; by rewrite app_nil_r.
  - simpl. rewrite session_of_set. case_decide; [subst|exists []; by rewrite app_nil_r].
    rewrite Hnd; [by exists [] | intros Hst; rewrite Hst in Hph; discriminate].
  - unfold timeline_cycle. simpl. rewrite session_of_set.
    case_decide; [subst; simpl; by eexists | exists []; by rewrite app_nil_r].
Qed.

(** ** The protocol state machine *)

Lemma next_phase_step ph c ph' : next_phase ph c = Some ph' <-> phase_step ph c ph'.
Proof.
  split.
  - destruct ph, c as [[]| | | |]; simpl; intros; simplify_eq; constructor.
  - by destruct 1.
Qed.

(** From the streaming phase every sequence of protocol steps stays
    streaming (spec 4.5: "one-way"). *)
Lemma streaming_rtc ph :
  rtc (fun p q => exists c, phase_step p c q) STREAMING_MODE ph -> ph = STREAMING_MODE.
Proof.
  intros Hr. remember STREAMING_MODE as st eqn:E. revert E.
  induction Hr as [|x y z [c Hs] _ IH]; [done|]. intros ->.
  inversion Hs; subst. by apply IH.
Qed.

Lemma handle_streaming w e sid :
  phase (session_of w sid) = STREAMING_MODE ->
  phase (session_of (handle w e).1 sid) = STREAMING_MODE.
Proof.
  intros Hst.
  destruct e as [v u|v|v x|v x|v|v|v t|v]; simpl;
    apply (guard_prop (fun r => phase (session_of r.1 sid) = STREAMING_MODE)); try done;
    intros ph Hph.
  - destruct (ensure_user u (graph w)) as [[]|]; simpl; [|done].
    rewrite session_of_set. case_decide; [subst|done].
    rewrite Hst in Hph. by destruct (is_ok _).
  - simpl. rewrite session_of_set.
    case_decide; [subst; rewrite Hst in Hph; discriminate | done].
  - destruct (follow _ x (graph w)); exact Hst.
  - destruct (unfollow _ x (graph w)); exact Hst.
  - destruct (list_users _ (graph w)) as [[]|]; exact Hst.
  - simpl. rewrite session_of_set.
    case_decide; [subst; rewrite Hst in Hph; discriminate | done].
  - unfold timeline_cycle; simpl. rewrite session_of_set.
    case_decide; [subst; rewrite Hst in Hph; by simplify_eq/= | done].
Qed.

(** Streaming is absorbing.  Once a session streams, no
    interleaving of later requests (its own or other clients') brings
    it back to command mode: ending the stream ends the session. *)
Theorem streaming_absorbing (w : World) (es : list Event) (sid : nat) :
  phase (session_of w sid) = STREAMING_MODE ->
  phase (session_of (run w es).1 sid) = STREAMING_MODE.
Proof.
  revert w. induction es as [|e es IH]; intros w Hst; [done|].
  rewrite run_cons. simpl. by apply IH, handle_streaming.
Qed.

Lemma streaming_absorbing_witness :
  phase (session_of (run init_world [ELogin 1 "ann"; ETimeline 1]%string).1 1) =
    STREAMING_MODE /\
  phase (session_of (run (run init_world [ELogin 1 "ann"; ETimeline 1]%string).1
           [ELogin 1 "ann"; EEnterCommands 1; EFollow 1 "bo"]%string).1 1) =
    STREAMING_MODE.
Proof.
  split; [vm_compute; reflexivity|].
  apply streaming_absorbing. vm_compute. reflexivity.
Defined.

(** ** Unfollow stops delivery (spec 8) *)

Definition reply_posts (r : Reply) : list Post :=
  match r with RBatch ps => ps | _ => [] end.

(** The requests that make somebody follow [b]. *)
Definition follows_target (b : string) (e : Event) : Prop :=
  match e with EFollow _ v => v = b | _ => False end.

Lemma status_of_error_not_success e : status_of_error e <> SUCCESS.
Proof. by destruct e. Qed.

Lemma handle_following w e u b :
  ~ follows_target b e -> b ∉ following_of (graph w) u ->
  b ∉ following_of (graph (handle w e).1) u.
Proof.
  intros Hne Hb.
  destruct e as [v x|v|v x|v x|v|v|v t|v]; simpl in *;
    apply (guard_prop (fun r => b ∉ following_of (graph r.1) u)); try done;
    intros ph _.
  - destruct (ensure_user x (graph w)) as [[c g']|] eqn:E; simpl; [|done].
    graph_cases; simplify_eq. case_bool_decide; simplify_eq; [done|].
    unfold following_of in *; simpl.
    rewrite lookup_insert. case_decide; simpl; set_solver.
  - destruct (follow _ x (graph w)) as [g'|] eqn:E; [simpl|done].
    apply follow_ok_iff in E as (_ & _ & _ & _ & ->).
    rewrite following_of_add_edge. case_decide; [subst|done]. set_solver.
  - destruct (unfollow _ x (graph w)) as [g'|] eqn:E; [simpl|done].
    graph_cases; simplify_eq. rewrite following_of_remove_edge. case_decide; set_solver.
  - by destruct (list_users _ (graph w)) as [[]|].
Qed.

Lemma run_following w es u b :
  Forall (fun e => ~ follows_target b e) es -> b ∉ following_of (graph w) u ->
  b ∉ following_of (graph (run w es).1) u.
Proof.
  intros Hes. revert w. induction Hes as [|e es He _ IH]; intros w Hb; [done|].
  rewrite run_cons. simpl. by apply IH, handle_following.
Qed.

Lemma cycle_authors w sid :
  world_wf w ->
  forall p, p ∈ reply_posts (handle w (ECycle sid)).2 ->
            author p = suser (session_of w sid) \/
            author p ∈ following_of (graph w) (suser (session_of w sid)).
Proof.
  intros (_ & A & HR & _). simpl. set (u := suser (session_of w sid)).
  apply (guard_prop (fun r => forall p, p ∈ reply_posts r.2 ->
            author p = u \/ author p ∈ following_of (graph w) u)); [set_solver|].
  intros ph _.
  pose proof (timeline_cycle_spec (S:=AuthorStore) (store w) A u
                (following_of (graph w) u) (cursor (session_of w sid)) HR) as Hc.
  unfold timeline_cycle in *. simpl in *.
  intros p Hp. apply (proj1 Hc) in Hp. tauto.
Qed.

Lemma unfollow_success w sid b :
  world_wf w -> (handle w (EUnfollow sid b)).2 = RStatus SUCCESS ->
  b <> suser (session_of w sid) /\
  b ∉ following_of (graph (handle w (EUnfollow sid b)).1) (suser (session_of w sid)).
Proof.
  intros (Hg & _). simpl. unfold handle_unfollow, guard.
  set (u := suser (session_of w sid)).
  destruct (next_phase (phase (session_of w sid)) CCommand); [|simpl; intros [=]].
  destruct (unfollow u b (graph w)) as [g'|e] eqn:E;
    [|simpl; intros [= He]; exfalso; exact (status_of_error_not_success e He)].
  intros _. graph_cases; simplify_eq.
  assert (b ∈ following_of (graph w) u) as Hb by assumption. split.
  - apply (following_of_wf (graph w) u b Hg) in Hb. naive_solver.
  - simpl. rewrite following_of_remove_edge, decide_True by done. set_solver.
Qed.

(** Unfollowing stops delivery.  After a successful [Unfollow b]
    on a connection of user [u], as long as no request follows [b]
    again, no later delivery cycle of any streaming connection of [u]
    (the same process or another one), whatever the interleaving of
    other requests, sends a post by [b] (spec 8: "stops future posts
    from that author"); what was already delivered stays. *)
Theorem unfollow_stops_delivery (w : World) (sid sid' : nat) (b : string) (es : list Event) :
  world_wf w ->
  (handle w (EUnfollow sid b)).2 = RStatus SUCCESS ->
  Forall (fun e => ~ follows_target b e) es ->
  let w' := (run (handle w (EUnfollow sid b)).1 es).1 in
  suser (session_of w' sid') = suser (session_of w sid) ->
  forall p, p ∈ reply_posts (handle w' (ECycle sid')).2 -> author p <> b.
Proof.
  intros Hw Hok Hes w' Hu p Hp.
  destruct (unfollow_success w sid b Hw Hok) as [Hbu Hb].
  apply cycle_authors in Hp; [|apply run_wf, handle_wf, Hw].
  rewrite Hu in Hp.
  pose proof (run_following _ es _ b Hes Hb). set_solver.
Qed.

(** ** Witnesses and the scenarios of spec section 8 *)

(** Connection 1: alice in command mode; connection 2: alice
    streaming; connection 3: bob streaming and posting. *)
Definition setup_events : list Event :=
  [ELogin 1 "alice"; EEnterCommands 1; ELogin 3 "bob"; EEnterCommands 3;
   EFollow 1 "bob"; ELogin 2 "alice"; ETimeline 2; ETimeline 3;
   EPost 3 "hello"; ECycle 2]%string.

Definition setup_world : World := (run init_world setup_events).1.

Lemma setup_world_wf : world_wf setup_world.
Proof. apply run_wf, init_world_wf. Qed.

Lemma handle_wf_witness :
  world_wf (handle setup_world (ECycle 2)).1.
Proof. apply (handle_wf setup_world (ECycle 2)), setup_world_wf. Defined.

Lemma delivered_prefix_witness :
  exists more, delivered (session_of (handle setup_world (ECycle 2)).1 2) =
               delivered (session_of setup_world 2) ++ more.
Proof. apply (delivered_prefix setup_world (ECycle 2) 2), setup_world_wf. Defined.

Lemma unfollow_stops_delivery_witness :
  (handle setup_world (EUnfollow 1 "bob")).2 = RStatus SUCCESS /\
  forall p, p ∈ reply_posts
                 (handle (run (handle setup_world (EUnfollow 1 "bob")).1
                            [EPost 3 "again"])%string.1 (ECycle 2)).2 ->
            author p <> "bob"%string.
Proof.
  split; [vm_compute; reflexivity|].
  apply (unfollow_stops_delivery setup_world 1 2 "bob"); [apply setup_world_wf | | |].
  - vm_compute. reflexivity.
  - repeat constructor. simpl. tauto.
  - vm_compute. reflexivity.
Defined.

(** The alice/bob scenario of spec section 8, end to end: a
    Follow of an unregistered user fails with [NOT_EXISTS]; once bob
    has logged in the same Follow succeeds; bob posts "hello"; alice's
    next delivery cycle yields exactly that one post, and the cycle
    after it nothing until bob posts again. *)
Theorem scenario_alice_bob :
  (run init_world
     [ELogin 1 "alice"; EEnterCommands 1; EFollow 1 "bob";
      ELogin 2 "bob"; EEnterCommands 2; EFollow 1 "bob";
      ETimeline 1; ETimeline 2; EPost 2 "hello";
      ECycle 1; ECycle 1]%string).2 =
  [RStatus SUCCESS; RStatus SUCCESS; RStatus FAILURE_NOT_EXISTS;
   RStatus SUCCESS; RStatus SUCCESS; RStatus SUCCESS;
   RStatus SUCCESS; RStatus SUCCESS; RStatus SUCCESS;
   RBatch [mkPost "bob" "hello" 1]; RBatch []]%string.
Proof. vm_compute. reflexivity. Qed.

(** The List scenario of spec section 8: after alice follows bob
    and carol, List answers every registered user and exactly bob and
    carol as followed. *)
Theorem scenario_list :
  exists all fol,
    (run init_world
       [ELogin 1 "alice"; ELogin 2 "bob"; ELogin 3 "carol"; EEnterCommands 1;
        EFollow 1 "bob"; EFollow 1 "carol"; EList 1]%string).2
    = [RStatus SUCCESS; RStatus SUCCESS; RStatus SUCCESS; RStatus SUCCESS;
       RStatus SUCCESS; RStatus SUCCESS; RList all fol] /\
    (forall x, x ∈ ["alice"; "bob"; "carol"]%string -> x ∈ all) /\
    (forall x, x ∈ fol <-> x ∈ ["bob"; "carol"]%string).
Proof.
  eexists _, _. split; [vm_compute; reflexivity|].
  split; intros x; [|split]; vm_compute; set_solver.
Qed.
