(* ===== verification/Client.v ===== *)
(** * Client: the model of src/tsc.cc

    The client process: [main] reads [-h host -u user -p port]
    (getopt), builds a [Client], and [run_client] (client.h, not in the
    repository) calls [connectTo] once and then [processCommand] on
    each command line, and [processTimeline] on TIMELINE.

    - [Client] is the class's data (tsc.cc 24-45) without the gRPC stub.
    - [main_options] is the option loop of [main] (52-64) over the
      stream of (option, argument) pairs [getopt] returns.
    - [connectTo] (73-105) reads the [Login] reply code.
    - [processCommand] (107-211): [strncmp] prefix tests, [substr],
      the Follow/Unfollow RPC through a stub, and the status decoding
      of [Status.decode_status].
    - [processTimeline] (213-283): its body is a comment, so the
      function returns at once and changes nothing.  The polling loop
      inside that comment is not modelled: it is not part of the
      program (and would not compile, see the manifest's findings).

    [processCommand] sends [input.substr(7).c_str()] after the
    temporary [std::string] it points into has been destroyed (lines
    134 and 144): the name the request carries is undefined.  The
    model leaves it unspecified: the section variable [dangling_read]
    gives the name read for a given suffix, and every theorem holds for
    every [dangling_read].  No theorem assumes the typed name reaches
    the service.

    The theorems: [processCommand] on every kind of line, its error
    path exactly characterised (C5, C7, C10); the client composed with
    the service through [Service_stub] (C1-C3), whose whole sessions
    touch only the client's own user (C9); [main]'s options (C6).

    C++ strings are modelled as Rocq strings without NUL characters
    (what [c_str()] and [strncmp] see is then the whole string).  RPC
    outcomes are values: [RpcOk] with the reply message, or
    [RpcFailed] for a non-OK [grpc::Status], after which the reply
    message keeps its default content. *)

From Stdlib Require Import Ascii ZArith.
From stdpp Require Import base list sets gmap strings.
From S2P Require Import Prelude Status Graph Store Timeline Service.

Local Open Scope string_scope.

(** ** The C++ library pieces the client uses *)

(** [strncmp(s, t, n) == 0] on NUL-free strings: the first [n]
    characters agree (a shorter string ends with its NUL, which then
    differs from the other string's character). *)
Definition strncmp_eq (s t : string) (n : nat) : bool :=
  String.eqb (String.substring 0 n s) (String.substring 0 n t).

(** [std::string::substr(pos)]: throws [std::out_of_range] when
    [pos > size()], else the suffix from [pos]. *)
Inductive CppException := out_of_range.

Definition substr (s : string) (pos : nat) : result CppException string :=
  if Nat.leb pos (String.length s)
  then Ok (String.substring pos (String.length s - pos) s)
  else Err out_of_range.

(** The outcome of a unary RPC on the stub: the reply, or a failed
    [grpc::Status] (the reply object is then left untouched). *)
Inductive RpcOutcome :=
  | RpcOk (r : ReplyStatus)
  | RpcFailed.

(** The reply object the code reads after the call: the received
    message, or the default-constructed one. *)
Definition reply_after (o : RpcOutcome) : ReplyStatus :=
  match o with RpcOk r => r | RpcFailed => default_ReplyStatus end.

Definition grpc_ok (o : RpcOutcome) : bool :=
  match o with RpcOk _ => true | RpcFailed => false end.

(** ** The client object (tsc.cc 24-45) *)

Record Client := mkClient {
  hostname : string;
  username : string;
  port : string
}.

(** ** main (tsc.cc 47-71) *)

(** The defaults of lines 49-51. *)
Definition default_client : Client := mkClient "localhost" "default" "3010".

(** The [switch (opt)] of lines 54-63 on one option [getopt]
    returned: [h], [u] and [p] set their field from [optarg]; any other
    value (getopt's ['?'] for an unknown option or a missing argument)
    prints the error line and changes nothing. *)
Definition main_option (c : Client) (opt : ascii) (optarg : string)
    : Client * list string :=
  if Ascii.eqb opt "h"%char then (mkClient optarg (username c) (port c), [])
  else if Ascii.eqb opt "u"%char then (mkClient (hostname c) optarg (port c), [])
  else if Ascii.eqb opt "p"%char then (mkClient (hostname c) (username c) optarg, [])
  else (c, ["Invalid Command Line Argument" ++ String (Ascii.ascii_of_nat 10) ""]).

(** The [while ((opt = getopt(...)) != -1)] loop of lines 53-64 over
    the option stream, with the lines written to [std::cerr]. *)
Fixpoint main_options (c : Client) (opts : list (ascii * string)) : Client * list string :=
  match opts with
  | [] => (c, [])
  | (o, a) :: rest =>
      let '(c1, err1) := main_option c o a in
      let '(c2, err2) := main_options c1 rest in
      (c2, app err1 err2)
  end.

(** [main] up to the call of [run_client]: the client it builds. *)
Definition main_client (opts : list (ascii * string)) : Client * list string :=
  main_options default_client opts.

(** ** connectTo (tsc.cc 73-105) *)

(** The [Login] call's reply decides: ["1"] an existing user, ["0"]
    a new one (both return 1), anything else (a failed call leaves the
    empty string) returns -1.  The printed line is returned too. *)
Definition connectTo (c : Client) (login : RpcOutcome) : Z * string :=
  let st := status (reply_after login) in
  if String.eqb st "1" then (1%Z, username c ++ ": successfully logged in")
  else if String.eqb st "0" then (1%Z, "new user created")
  else ((-1)%Z, "could not establish a connection to host").

(** ** The stub: the interface between client and service *)

(** [User] (lines 89-90): the message of the Login call, holding
    the client's user name. *)
Record User := mkUser { user_username : string }.

(** [tinysns::FollowOp]: the caller and the user to (un)follow. *)
Record FollowOp := mkFollowOp { fo_username : string; fo_follow : string }.

(** The RPCs the client calls, as the generated [TinySNS::Stub] offers
    them; [St] is the state of the service behind the channel. *)
Class TinySNSStub (St : Type) := {
  stub_login : St -> User -> RpcOutcome * St;
  stub_follow : St -> FollowOp -> RpcOutcome * St;
  stub_unfollow : St -> FollowOp -> RpcOutcome * St
}.

(** [IReply] of client.h: the gRPC status, the decoded command status
    and, for LIST, the two user lists. *)
Record IReply := mkIReply {
  grpc_status : bool;            (** [grpc::Status::ok()] *)
  comm_status : IStatus;
  all_users : list string;
  following_users : list string
}.

(** ** processCommand (tsc.cc 107-211) *)

(** Lines 160-174: the reply's status string decoded into
    [comm_status]; [all_users] and [following_users] are never filled. *)
Definition finish_reply (grpc : bool) (st : ReplyStatus) : IReply :=
  mkIReply grpc (decode_status (status st)) [] [].

Section ProcessCommand.
  Context {St : Type} `{TinySNSStub St}.

  (** [const char* target_name = input.substr(7).c_str();] (lines 134
      and 144) keeps a pointer into a temporary string that is destroyed
      at the end of that statement, and [set_follow(target_name)]
      (lines 138 and 149) then reads freed memory: undefined behaviour.
      The model assumes the program goes on and sends some name, and
      leaves that name unspecified: [dangling_read t] is what the request
      carries when the destroyed string held [t].  (With glibc, a name
      of 16 characters or more is clobbered by [free]; a short one may
      survive in the destroyed string's inline buffer.)  Every theorem
      holds for every [dangling_read]. *)
  Variable dangling_read : string -> string.

  (** The [if/else if] chain of lines 133-158 and the decoding after
      it.  FOLLOW and UNFOLLOW take the name after the first space
      ([input.substr(7)], [input.substr(9)], which throw
      [std::out_of_range] on a shorter line), read it back through the
      dangling pointer and call the RPC; LIST,
      TIMELINE and any other line make no call, so the reply object
      keeps its default (empty) status and [grpc_status] its default
      OK value. *)
Definition processCommand (c : Client) (input : string) (st : St)
      : result CppException (IReply * St) :=
    if strncmp_eq input "FOLLOW" 6 then
      target ← substr input 7;
      let '(o, st') := stub_follow st (mkFollowOp (username c) (dangling_read target)) in
      Ok (finish_reply (grpc_ok o) (reply_after o), st')
    else if strncmp_eq input "UNFOLLOW" 8 then
      target ← substr input 9;
      let '(o, st') := stub_unfollow st (mkFollowOp (username c) (dangling_read target)) in
      Ok (finish_reply (grpc_ok o) (reply_after o), st')
    else if strncmp_eq input "LIST" 4 then
      Ok (finish_reply true default_ReplyStatus, st)
    else if strncmp_eq input "TIMELINE" 8 then
      Ok (finish_reply true default_ReplyStatus, st)
    else Ok (finish_reply true default_ReplyStatus, st).

  (** The client's session: [connectTo] on the Login reply, then
      [processCommand] on each command line in order; an uncaught
      exception ends the process. *)
Definition connect (c : Client) (st : St) : Z * St :=
    let '(o, st') := stub_login st (mkUser (username c)) in
    ((connectTo c o).1, st').

Fixpoint process_commands (c : Client) (inputs : list string) (st : St)
      : result CppException (list IReply * St) :=
    match inputs with
    | [] => Ok ([], st)
    | i :: rest =>
        '(r, st1) ← processCommand c i st;
        '(rs, st2) ← process_commands c rest st1;
        Ok (r :: rs, st2)
    end.
End ProcessCommand.

(** ** processTimeline (tsc.cc 213-283) *)

(** The body of [Client::processTimeline] is empty: it makes no RPC and
    changes nothing.  The polling loop in its comment (lines 232-282) is
    not program code (it is commented out and would not compile: it
    uses an undeclared [context], [rStatus.stat()], the undefined
    [checkForError], [userInputReady] and [lastPost]) and is not
    modelled. *)
Definition processTimeline {St} (c : Client) (st : St) : St := st.

(** ** The service behind the channel *)

(** What the service sends on the wire for a reply to a unary RPC:
    the status code, or a failed call for a request its session does
    not accept. *)
Definition wire_reply (r : Reply) : RpcOutcome :=
  match r with
  | RStatus s => RpcOk (mkReplyStatus (status_code s))
  | RRejected => RpcFailed
  | RList _ _ | RBatch _ => RpcOk default_ReplyStatus
  end.

(** The stub of a client connected on connection [sid] of the service:
    each call is one request of that connection. *)
#[export] Instance Service_stub : TinySNSStub (World * nat) := {
  stub_login := fun '(w, sid) u =>
    let '(w', r) := handle w (ELogin sid (user_username u)) in (wire_reply r, (w', sid));
  stub_follow := fun '(w, sid) op =>
    let '(w', r) := handle w (EFollow sid (fo_follow op)) in (wire_reply r, (w', sid));
  stub_unfollow := fun '(w, sid) op =>
    let '(w', r) := handle w (EUnfollow sid (fo_follow op)) in (wire_reply r, (w', sid))
}.

(** ** Lemmas on the string model *)

Lemma substring_0_length (v : string) : String.substring 0 (String.length v) v = v.
Proof. induction v as [|a v IH]; simpl; [done|]. by rewrite IH. Qed.

Lemma substring_0_app_length (p v : string) :
  String.substring 0 (String.length p) (p ++ v) = p.
Proof. induction p as [|a p IH]; simpl; [by destruct v|]. by rewrite IH. Qed.

Lemma length_app_string (p v : string) :
  String.length (p ++ v) = String.length p + String.length v.
Proof. induction p as [|a p IH]; simpl; [done | by rewrite IH]. Qed.

Lemma substring_app_length (p v : string) :
  String.substring (String.length p) (String.length v) (p ++ v) = v.
Proof. induction p as [|a p IH]; simpl; [apply substring_0_length | done]. Qed.

(** A command line made of a keyword, a space and an argument. *)
Lemma substr_keyword (p v : string) :
  substr (p ++ v) (String.length p) = Ok v.
Proof.
  unfold substr. rewrite length_app_string.
  destruct (Nat.leb_spec (String.length p) (String.length p + String.length v)); [|lia].
  rewrite Nat.add_comm, Nat.add_sub. by rewrite substring_app_length.
Qed.

(** ** Theorems on processCommand *)

Section ProcessCommandTheorems.
  Context {St : Type} `{TinySNSStub St}.
  Variable dangling_read : string -> string.

  (** The FOLLOW branch.  On [FOLLOW <name>] the client sends one
      Follow RPC for its own user and [<name>] (everything after the
      first space), and reports the call's gRPC status and the
      decoded reply status; no user list is filled. *)
Theorem processCommand_follow (c : Client) (v : string) (st : St) :
    processCommand dangling_read c ("FOLLOW " ++ v) st =
    let '(o, st') := stub_follow st (mkFollowOp (username c) (dangling_read v)) in
    Ok (mkIReply (grpc_ok o) (decode_status (status (reply_after o))) [] [], st').
  Proof.
    unfold processCommand.
    replace (strncmp_eq ("FOLLOW " ++ v) "FOLLOW" 6) with true by reflexivity.
    pose proof (substr_keyword "FOLLOW " v) as Hs.
    change (String.length "FOLLOW ") with 7 in Hs. rewrite Hs. simpl.
    by destruct (stub_follow st _).
  Qed.



  (** C5: the lines that make no RPC.  Every command line that does
      not start with FOLLOW or UNFOLLOW (LIST, TIMELINE, or anything
      else) leaves the service untouched and is reported as a
      successful call with [SUCCESS] and empty user lists: LIST never
      returns the users the protocol requires. *)
Theorem processCommand_no_rpc (c : Client) (input : string) (st : St) :
    strncmp_eq input "FOLLOW" 6 = false -> strncmp_eq input "UNFOLLOW" 8 = false ->
    processCommand dangling_read c input st = Ok (mkIReply true SUCCESS [] [], st).
  Proof.
    intros Hf Hu. unfold processCommand. rewrite Hf, Hu.
    by destruct (strncmp_eq input "LIST" 4), (strncmp_eq input "TIMELINE" 8).
  Qed.
End ProcessCommandTheorems.


Lemma processCommand_no_rpc_witness :
  strncmp_eq "LIST" "FOLLOW" 6 = false /\ strncmp_eq "LIST" "UNFOLLOW" 8 = false /\
  processCommand (St := World * nat) (fun t => t) default_client "LIST" (init_world, 1) =
    Ok (mkIReply true SUCCESS [] [], (init_world, 1)).
Proof.
  split_and!; [reflexivity | reflexivity |].
  apply processCommand_no_rpc; reflexivity.
Defined.

(** ** The client over the service *)

(** The status a graph result is reported with, and the world it
    leaves. *)
Definition graph_status (r : result GraphError Graph) : IStatus :=
  match r with Ok _ => SUCCESS | Err e => status_of_error e end.

Definition graph_world (w : World) (r : result GraphError Graph) : World :=
  match r with Ok g' => mkWorld g' (store w) (sessions w) | Err _ => w end.


(** A FOLLOW or UNFOLLOW line on a connection that accepts commands:
    one request of the connection's user, reported with the service's
    status. *)
Lemma follow_line_accepted (dangling_read : string -> string) c w sid v :
  next_phase (phase (session_of w sid)) CCommand <> None ->
  processCommand dangling_read c ("FOLLOW " ++ v) (w, sid) =
  Ok (mkIReply true (graph_status (follow (suser (session_of w sid)) (dangling_read v) (graph w))) [] [],
      (graph_world w (follow (suser (session_of w sid)) (dangling_read v) (graph w)), sid)).
Proof.
  intros Hph. rewrite processCommand_follow. simpl. unfold handle_follow, guard.
  destruct (next_phase _ _); [|done].
  destruct (follow _ (dangling_read v) (graph w)); simpl; by rewrite ?decode_status_code_eq.
Qed.


(** C1: end to end, the client reports exactly the status the service
    decided for the name it actually sent.  For a connection whose
    session accepts commands, the line [FOLLOW v] performs one Follow
    request of the session, for the name read through the dangling
    pointer ([dangling_read v]: [v] itself only if the freed buffer
    still holds it), and [comm_status] is the service's status for that
    request, carried as a code string and decoded; this holds whatever
    the dangling read yields. *)
Theorem client_follow_status (dangling_read : string -> string) (c : Client) (w : World)
    (sid : nat) (v : string) :
  next_phase (phase (session_of w sid)) CCommand <> None ->
  exists s, (handle w (EFollow sid (dangling_read v))).2 = RStatus s /\
    processCommand dangling_read c ("FOLLOW " ++ v) (w, sid) =
      Ok (mkIReply true s [] [], ((handle w (EFollow sid (dangling_read v))).1, sid)).
Proof.
  intros Hph. rewrite follow_line_accepted by done.
  exists (graph_status (follow (suser (session_of w sid)) (dangling_read v) (graph w))).
  simpl. unfold handle_follow, guard.
  destruct (next_phase _ _); [|done]. by destruct (follow _ (dangling_read v) (graph w)).
Qed.

(** C2: a refused call is reported as success.  When the service
    refuses the Follow request (the connection's session streams, so
    it accepts no command), the call fails at the gRPC level, the reply
    message keeps its empty status, and [processCommand] sets
    [comm_status] to [SUCCESS]: a transport-level failure is conflated
    with the domain status, which spec section 7 rules out. *)
Theorem client_follow_refused (dangling_read : string -> string) (c : Client) (w : World)
    (sid : nat) (v : string) :
  phase (session_of w sid) = STREAMING_MODE ->
  processCommand dangling_read c ("FOLLOW " ++ v) (w, sid) = Ok (mkIReply false SUCCESS [] [], (w, sid)).
Proof.
  intros Hst. rewrite processCommand_follow. simpl.
  unfold handle_follow, guard. rewrite Hst. done.
Qed.

(** C3: [connectTo] agrees with the service.  On a fresh connection
    the client's [connectTo] returns 1 exactly when the service's
    Login opened the session (new or existing user), and -1 exactly
    when it did not (the empty user name). *)
Theorem connect_login (c : Client) (w : World) (sid : nat) :
  phase (session_of w sid) = DISCONNECTED ->
  ((connect c (w, sid)).1 = 1%Z <->
   phase (session_of (connect c (w, sid)).2.1 sid) = LOGGED_IN) /\
  ((connect c (w, sid)).1 = (-1)%Z <->
   phase (session_of (connect c (w, sid)).2.1 sid) = DISCONNECTED).
Proof.
  intros Hd. unfold connect. simpl. unfold handle_login, guard. rewrite Hd.
  destruct (ensure_user (username c) (graph w)) as [[created g']|e] eqn:E; simpl.
  - rewrite session_of_set, decide_True by done. simpl.
    destruct created; simpl; split; split; intros; done.
  - apply ensure_user_err in E as [-> _]. rewrite Hd. cbn.
    split; split; intros; congruence.
Qed.

Definition alice_client : Client := mkClient "localhost" "alice" "3010".

Lemma client_follow_status_witness :
  next_phase (phase (session_of setup_world 1)) CCommand <> None /\
  exists s, (handle setup_world (EFollow 1 "carol")).2 = RStatus s /\
    processCommand (fun t => t) alice_client ("FOLLOW " ++ "carol") (setup_world, 1) =
      Ok (mkIReply true s [] [], ((handle setup_world (EFollow 1 "carol")).1, 1)).
Proof.
  assert (Hph : next_phase (phase (session_of setup_world 1)) CCommand <> None)
    by (vm_compute; discriminate).
  split; [exact Hph|]. exact (client_follow_status (fun t => t) alice_client setup_world 1 "carol" Hph).
Defined.

Lemma client_follow_refused_witness :
  phase (session_of setup_world 2) = STREAMING_MODE /\
  processCommand (fun t => t) alice_client ("FOLLOW " ++ "carol") (setup_world, 2) =
    Ok (mkIReply false SUCCESS [] [], (setup_world, 2)).
Proof.
  assert (Hst : phase (session_of setup_world 2) = STREAMING_MODE)
    by (vm_compute; reflexivity).
  split; [exact Hst|]. exact (client_follow_refused (fun t => t) alice_client setup_world 2 "carol" Hst).
Defined.

Lemma connect_login_witness :
  phase (session_of setup_world 4) = DISCONNECTED /\
  (connect (mkClient "localhost" "dave" "3010") (setup_world, 4)).1 = 1%Z.
Proof.
  assert (Hd : phase (session_of setup_world 4) = DISCONNECTED)
    by (vm_compute; reflexivity).
  split; [exact Hd|].
  apply (connect_login (mkClient "localhost" "dave" "3010") setup_world 4 Hd).
  vm_compute. reflexivity.
Defined.

(** ** Theorems on main *)

(** The value an option ends with: its last occurrence, or the
    default. *)
Definition last_opt (o : ascii) (d : string) (opts : list (ascii * string)) : string :=
  fold_left (fun acc '(o', a) => if Ascii.eqb o' o then a else acc) opts d.

Definition is_known_opt (o : ascii) : bool :=
  Ascii.eqb o "h"%char || Ascii.eqb o "u"%char || Ascii.eqb o "p"%char.

Lemma main_options_spec c opts :
  main_options c opts =
  (mkClient (last_opt "h" (hostname c) opts) (last_opt "u" (username c) opts)
            (last_opt "p" (port c) opts),
   map (fun _ => "Invalid Command Line Argument" ++ String (Ascii.ascii_of_nat 10) "")
       (filter (fun '(o, _) => is_known_opt o = false) opts)).
Proof.
  revert c. induction opts as [|[o a] rest IH]; intros [h u p]; [done|].
  cbn [main_options]. unfold main_option.
  destruct (Ascii.eqb_spec o "h") as [->|Hh];
    [|destruct (Ascii.eqb_spec o "u") as [->|Hu];
      [|destruct (Ascii.eqb_spec o "p") as [->|Hp]]];
    rewrite IH; simpl.
  1-3: rewrite filter_cons_False by (unfold is_known_opt; simpl; congruence); done.
  rewrite filter_cons_True by
    (unfold is_known_opt; repeat rewrite (proj2 (Ascii.eqb_neq _ _)) by done; done).
  unfold last_opt; simpl.
  by repeat rewrite (proj2 (Ascii.eqb_neq _ _)) by done.
Qed.

(** C6: the command line.  The [Client] that [main] builds takes each of
    host, user and port from the last [-h], [-u], [-p] option, with
    the defaults localhost, default and 3010, and prints one error
    line per other option without stopping. *)
Theorem main_client_spec (opts : list (ascii * string)) :
  (main_client opts).1 =
    mkClient (last_opt "h" "localhost" opts) (last_opt "u" "default" opts)
             (last_opt "p" "3010" opts) /\
  length (main_client opts).2 =
    length (filter (fun '(o, _) => is_known_opt o = false) opts).
Proof.
  unfold main_client. rewrite main_options_spec. simpl. split; [done|].
  by rewrite length_map.
Qed.

(** ** Follow and Unfollow through the client (spec 8) *)


(** ** The scenario of spec section 8, driven by the client code *)

Definition bob_client : Client := mkClient "localhost" "bob" "3010".

(** ** The client keeps the service consistent *)

(** Each command line of a client on connection [sid] is at most one
    Follow or Unfollow request of that connection. *)
Lemma processCommand_service_step (dangling_read : string -> string) c line w sid r st' :
  processCommand dangling_read c line (w, sid) = Ok (r, st') ->
  st'.2 = sid /\
  (st'.1 = w \/ exists t, st'.1 = (handle w (EFollow sid t)).1 \/
                          st'.1 = (handle w (EUnfollow sid t)).1).
Proof.
  unfold processCommand.
  destruct (strncmp_eq line "FOLLOW" 6); [|destruct (strncmp_eq line "UNFOLLOW" 8)].
  - destruct (substr line 7) as [t|]; simpl; [|done].
    destruct (handle_follow sid (dangling_read t) w) eqn:E. intros [= <- <-].
    split; [done|]. right. exists (dangling_read t). left. simpl. by rewrite E.
  - destruct (substr line 9) as [t|]; simpl; [|done].
    destruct (handle_unfollow sid (dangling_read t) w) eqn:E. intros [= <- <-].
    split; [done|]. right. exists (dangling_read t). right. simpl. by rewrite E.
  - repeat case_match; intros [= <- <-]; auto.
Qed.

(** [connect] is the Login request of its connection. *)
Lemma connect_service_step c w sid :
  (connect c (w, sid)).2 = ((handle w (ELogin sid (username c))).1, sid).
Proof. unfold connect. simpl. by destruct (handle_login sid (username c) w). Qed.

(** A property of the service state that every Follow and Unfollow
    request of connection [sid] preserves holds after any command
    lines of the client on that connection. *)
Lemma process_commands_preserve (dangling_read : string -> string) (P : World -> Prop) c lines w sid rs st' :
  (forall w t, P w -> P (handle w (EFollow sid t)).1 /\ P (handle w (EUnfollow sid t)).1) ->
  P w -> process_commands dangling_read c lines (w, sid) = Ok (rs, st') ->
  P st'.1 /\ st'.2 = sid.
Proof.
  intros HP. revert w rs. induction lines as [|l ls IH]; intros w rs Hw; simpl.
  - by intros [= _ <-].
  - destruct (processCommand dangling_read c l (w, sid)) as [[r [w1 sid1]]|] eqn:E; simpl; [|done].
    apply processCommand_service_step in E as [? Hw1]; simpl in *; subst sid1.
    destruct (process_commands dangling_read c ls (w1, sid)) as [[rs1 st2]|] eqn:E2; simpl; [|done].
    intros [= _ <-]. eapply IH; [|exact E2].
    destruct Hw1 as [->|[t [->| ->]]]; [done | apply HP, Hw | apply HP, Hw].
Qed.



(** C7: the keyword tests only look at the keyword.  Any character
    stands for the space of [FOLLOW <name>]: [strncmp] compares the six
    letters and [substr(7)] skips the seventh character unread, so
    [FOLLOWxbob] follows bob (and [FOLLOWING] follows [NG]). *)
Theorem processCommand_follow_any_separator {St} `{TinySNSStub St}
    (dangling_read : string -> string) (c : Client) (sep : ascii) (v : string) (st : St) :
  processCommand dangling_read c ("FOLLOW" ++ String sep v) st = processCommand dangling_read c ("FOLLOW " ++ v) st.
Proof.
  (* Both lines pass the FOLLOW test and have the same suffix from
     position 7: the two calls are the same by computation. *)
  unfold processCommand, substr. simpl. reflexivity.
Qed.

(** ** A client acts only for its own user *)

(** What a client on connection [sid] may have changed, relative to
    the service state [w0] before it connected: no other user's follow
    set, not the post store, no other connection's session; and its own
    session either acts for the client's user or accepts no command. *)
Definition session_isolated (c : Client) (sid : nat) (w0 w : World) : Prop :=
  (forall u, u <> username c -> following_of (graph w) u = following_of (graph w0) u) /\
  store w = store w0 /\
  (forall sid', sid' <> sid -> session_of w sid' = session_of w0 sid') /\
  (suser (session_of w sid) = username c \/ next_phase (phase (session_of w sid)) CCommand = None).

Lemma session_isolated_graph c sid w0 w g' :
  session_isolated c sid w0 w -> suser (session_of w sid) = username c ->
  (forall x, x <> username c -> following_of g' x = following_of (graph w) x) ->
  session_isolated c sid w0 (mkWorld g' (store w) (sessions w)).
Proof.
  intros (Hf & Hs & Ho & _) Hu Hg. split_and!; [| done | done | by left].
  intros u Hne. simpl. rewrite Hg by done. by apply Hf.
Qed.

Lemma session_isolated_step c sid w0 w t :
  session_isolated c sid w0 w ->
  session_isolated c sid w0 (handle w (EFollow sid t)).1 /\
  session_isolated c sid w0 (handle w (EUnfollow sid t)).1.
Proof.
  intros HI. simpl. unfold handle_follow, handle_unfollow, guard.
  destruct (next_phase _ CCommand) eqn:Eph; [|done].
  assert (Hu : suser (session_of w sid) = username c)
    by (destruct HI as (_ & _ & _ & [? | Hn]); [done | congruence]).
  split.
  - destruct (follow _ t (graph w)) eqn:E; simpl; [|done].
    apply session_isolated_graph; [done..|]. intros x Hx.
    apply (follow_local (suser (session_of w sid)) t); [congruence | done].
  - destruct (unfollow _ t (graph w)) eqn:E; simpl; [|done].
    apply session_isolated_graph; [done..|]. intros x Hx.
    apply (unfollow_local (suser (session_of w sid)) t); [congruence | done].
Qed.

(** On a fresh connection, the Login of [connectTo] opens a session for
    the client's user or leaves the connection closed. *)
Lemma connect_isolated c w sid :
  phase (session_of w sid) = DISCONNECTED ->
  session_isolated c sid w (handle w (ELogin sid (username c))).1.
Proof.
  intros Hd. simpl. unfold handle_login, guard. rewrite Hd.
  destruct (ensure_user (username c) (graph w)) as [[b g']|e] eqn:E; simpl.
  - split_and!; [| done | | left].
    + intros u Hu. simpl. by apply (ensure_user_local (username c) (graph w) b).
    + intros sid' Hne. rewrite session_of_set. by rewrite decide_False.
    + rewrite session_of_set, decide_True by done. done.
  - split_and!; [done..| right; by rewrite Hd].
Qed.

(** C9: a client acts only for its own user.  Whatever command lines
    a client sends after [connectTo] on a fresh connection [sid], when
    its session ends normally no other user's follow set has changed,
    the post store is untouched, and no other connection's session has
    changed.  This holds whatever name the dangling read yields, since
    the service acts for the user of the connection. *)
Theorem client_session_isolated (dangling_read : string -> string) (c : Client) (lines : list string) (w : World) (sid : nat)
    (rs : list IReply) (st' : World * nat) :
  phase (session_of w sid) = DISCONNECTED ->
  process_commands dangling_read c lines (connect c (w, sid)).2 = Ok (rs, st') ->
  (forall u, u <> username c -> following_of (graph st'.1) u = following_of (graph w) u) /\
  store st'.1 = store w /\
  (forall sid', sid' <> sid -> session_of st'.1 sid' = session_of w sid').
Proof.
  intros Hd. rewrite connect_service_step. intros Hrun.
  apply (process_commands_preserve dangling_read (session_isolated c sid w)) in Hrun
    as [(Hf & Hs & Ho & _) _]; [done | | by apply connect_isolated].
  intros w1 t HI. by apply session_isolated_step.
Qed.

Lemma client_session_isolated_witness :
  phase (session_of setup_world 5) = DISCONNECTED /\
  is_ok (process_commands (fun t => t) alice_client ["FOLLOW carol"; "UNFOLLOW bob"; "FOLLOW bob"]
           (connect alice_client (setup_world, 5)).2) = true /\
  match process_commands (fun t => t) alice_client ["FOLLOW carol"; "UNFOLLOW bob"; "FOLLOW bob"]
          (connect alice_client (setup_world, 5)).2 with
  | Ok (_, st') =>
      (forall u, u <> username alice_client ->
         following_of (graph st'.1) u = following_of (graph setup_world) u) /\
      store st'.1 = store setup_world /\
      (forall sid', sid' <> 5 -> session_of st'.1 sid' = session_of setup_world sid')
  | Err _ => False
  end.
Proof.
  assert (Hd : phase (session_of setup_world 5) = DISCONNECTED) by (vm_compute; reflexivity).
  split_and!; [exact Hd | vm_compute; reflexivity |].
  destruct (process_commands _ _ _) as [[rs st']|e] eqn:Hrun; [|vm_compute in Hrun; discriminate].
  exact (client_session_isolated (fun t => t) _ _ _ _ _ _ Hd Hrun).
Defined.

(** [strncmp(input, kw, n) == 0] with [n] the length of the keyword
    is exactly "the line starts with the keyword". *)
Lemma strncmp_eq_prefix (input kw : string) :
  strncmp_eq input kw (String.length kw) = String.prefix kw input.
Proof.
  unfold strncmp_eq. rewrite substring_0_length.
  destruct (String.prefix kw input) eqn:E.
  - apply String.prefix_correct in E. rewrite E. apply String.eqb_refl.
  - apply String.eqb_neq. intros H. apply String.prefix_correct in H. congruence.
Qed.

(** No line passes both the FOLLOW and the UNFOLLOW test. *)
Lemma prefix_FOLLOW_UNFOLLOW (input : string) :
  String.prefix "FOLLOW" input = true -> String.prefix "UNFOLLOW" input = false.
Proof.
  destruct input as [|a input]; [done|]. cbn [String.prefix].
  destruct (ascii_dec "F" a) as [<-|]; [intros _; reflexivity | done].
Qed.

Section ProcessCommandErrors.
  Context {St : Type} `{TinySNSStub St}.
  Variable dangling_read : string -> string.

  (** C10: exactly when the client dies.  The four keyword tests pass
      [strncmp] their keyword's own length (FOLLOW 6, UNFOLLOW 8,
      LIST 4, TIMELINE 8), so they are prefix tests, and
      [processCommand] throws [std::out_of_range] exactly on a line
      that starts with FOLLOW and is shorter than 7 characters, or
      starts with UNFOLLOW and is shorter than 9; every other line gets
      a reply, whatever the stub answers. *)
Theorem processCommand_error_iff (c : Client) (input : string) (st : St) :
    processCommand dangling_read c input st = Err out_of_range <->
    (String.prefix "FOLLOW" input = true /\ String.length input < 7) \/
    (String.prefix "UNFOLLOW" input = true /\ String.length input < 9).
  Proof.
    unfold processCommand.
    change (strncmp_eq input "FOLLOW" 6) with
      (strncmp_eq input "FOLLOW" (String.length "FOLLOW")).
    change (strncmp_eq input "UNFOLLOW" 8) with
      (strncmp_eq input "UNFOLLOW" (String.length "UNFOLLOW")).
    rewrite !strncmp_eq_prefix. unfold substr.
    destruct (String.prefix "FOLLOW" input) eqn:Ef.
    - rewrite (prefix_FOLLOW_UNFOLLOW input Ef).
      destruct (Nat.leb_spec 7 (String.length input)); simpl.
      + destruct (stub_follow st _). split; [done|]. intros [[_ ?]|[? _]]; [lia | done].
      + split; [intros _; left; split; [done | lia] | done].
    - destruct (String.prefix "UNFOLLOW" input) eqn:Eu.
      + destruct (Nat.leb_spec 9 (String.length input)); simpl.
        * destruct (stub_unfollow st _). split; [done|]. intros [[? _]|[_ ?]]; [done | lia].
        * split; [intros _; right; split; [done | lia] | done].
      + split; [by repeat case_match | intros [[? _]|[? _]]; done].
  Qed.
End ProcessCommandErrors.

Lemma processCommand_error_iff_witness :
  processCommand (St := World * nat) (fun t => t) default_client "UNFOLLOW" (init_world, 1) =
    Err out_of_range /\
  ((String.prefix "FOLLOW" "UNFOLLOW" = true /\ String.length "UNFOLLOW" < 7) \/
   (String.prefix "UNFOLLOW" "UNFOLLOW" = true /\ String.length "UNFOLLOW" < 9)).
Proof.
  assert (Hc : (String.prefix "FOLLOW" "UNFOLLOW" = true /\ String.length "UNFOLLOW" < 7) \/
               (String.prefix "UNFOLLOW" "UNFOLLOW" = true /\ String.length "UNFOLLOW" < 9))
    by (right; split; [reflexivity | simpl; lia]).
  split; [|exact Hc]. apply processCommand_error_iff, Hc.
Defined.
