(* ===== verification/Clients.v ===== *)
(** * Clients: concurrent clients of one service

    Spec section 5: many [tsc] processes talk to the service at once,
    and the service serialises their requests (per-entity locking makes
    each handler atomic).  A run of two clients is an interleaving of
    their command lines: [run_interleaved] takes the lines in the order
    the scheduler delivers them, each tagged with the client that typed
    it, and runs each through [processCommand] on that client's
    connection.

    The theorem shows that the interleaving is invisible to each
    client: it gets exactly the replies it would get running alone,
    and its user's follow set ends as its own session alone leaves it.
    The proof is a simulation up to the view of one user
    ([wview_eq]): Follow and Unfollow by a user read and change only
    that view ([Graph.follow_view]), and another user's requests leave
    it alone ([Graph.follow_other]).  The name read through the
    dangling pointer of [processCommand] is the same unspecified
    function [dangling_read] of the typed suffix for every line of
    both clients; the theorem holds for every such function. *)

From stdpp Require Import base list sets gmap strings.
From S2P Require Import Prelude Status Graph Store Timeline Service Client.

Local Open Scope string_scope.

(** ** The view of one user on the service state *)

(** Two service states look the same to user [u]: the same sessions,
    the same store, and the same view of the graph. *)
Definition wview_eq (u : string) (w w' : World) : Prop :=
  sessions w = sessions w' /\ store w = store w' /\ gview_eq u (graph w) (graph w').

#[export] Instance wview_eq_equiv u : Equivalence (wview_eq u).
Proof.
  unfold wview_eq. split; repeat intro; [done | naive_solver |].
  destruct_and!. split_and!; [congruence | congruence | by etrans].
Qed.

(** Follow and Unfollow requests share one shape: a graph operation
    run for the user of the session, when the session accepts
    commands. *)
Definition graph_request (op : string -> string -> Graph -> result GraphError Graph)
    (sid : nat) (v : string) (w : World) : World * Reply :=
  guard w sid CCommand (fun _ =>
    match op (suser (session_of w sid)) v (graph w) with
    | Err e => (w, RStatus (status_of_error e))
    | Ok g' => (mkWorld g' (store w) (sessions w), RStatus SUCCESS)
    end).

Lemma handle_follow_request sid v w : handle_follow sid v w = graph_request follow sid v w.
Proof. reflexivity. Qed.

Lemma handle_unfollow_request sid v w : handle_unfollow sid v w = graph_request unfollow sid v w.
Proof. reflexivity. Qed.

Section GraphRequest.
  Variable op : string -> string -> Graph -> result GraphError Graph.
  Hypothesis op_view : forall u v, Proper (gview_eq u ==> result_rel (gview_eq u)) (op u v).
  Hypothesis op_other : forall u u' v g g', u' <> u -> op u' v g = Ok g' -> gview_eq u g' g.

  (** A request of [u]'s own session: the same reply on states that
      look the same to [u], and states that still do. *)
Lemma graph_request_view u sid v w w' :
    wview_eq u w w' -> suser (session_of w sid) = u ->
    (graph_request op sid v w).2 = (graph_request op sid v w').2 /\
    wview_eq u (graph_request op sid v w).1 (graph_request op sid v w').1.
  Proof.
    intros Hw Hu. pose proof Hw as (Hs & Hst & Hg). unfold graph_request, guard.
    assert (Hses : session_of w sid = session_of w' sid) by (unfold session_of; by rewrite Hs).
    rewrite Hses in Hu |- *. destruct (next_phase _ _); [|done].
    pose proof (op_view u v _ _ Hg) as Hr. rewrite Hu.
    destruct (op u v (graph w)), (op u v (graph w')); simpl in Hr; try done.
    all: split; [by subst | simpl; first [done | by split_and!]].
  Qed.

  (** A request of another user's session leaves [u]'s view. *)
Lemma graph_request_other u sid v w :
    suser (session_of w sid) <> u -> wview_eq u (graph_request op sid v w).1 w.
  Proof.
    intros Hne. unfold graph_request, guard.
    destruct (next_phase _ _); [|done].
    destruct (op _ v (graph w)) eqn:E; simpl; [|done].
    split_and!; [done | done | by eapply op_other].
  Qed.
End GraphRequest.

Lemma graph_request_sessions op sid v w :
  sessions (graph_request op sid v w).1 = sessions w.
Proof. unfold graph_request, guard. repeat case_match; done. Qed.

(** ** processCommand up to a relation on stub states *)

Section StubSimulation.
  Context {St : Type} `{TinySNSStub St}.
  Variable dangling_read : string -> string.
  Variable R : St -> St -> Prop.
  Hypothesis follow_sim : forall op st st', R st st' ->
    (stub_follow st op).1 = (stub_follow st' op).1 /\ R (stub_follow st op).2 (stub_follow st' op).2.
  Hypothesis unfollow_sim : forall op st st', R st st' ->
    (stub_unfollow st op).1 = (stub_unfollow st' op).1 /\ R (stub_unfollow st op).2 (stub_unfollow st' op).2.

  (** Stub states that answer every call alike give the same reply to
      every command line, and stay related. *)
Lemma processCommand_sim c line st st' :
    R st st' ->
    result_rel (fun a b => a.1 = b.1 /\ R a.2 b.2)
      (processCommand dangling_read c line st) (processCommand dangling_read c line st').
  Proof.
    intros HR. unfold processCommand.
    destruct (strncmp_eq line "FOLLOW" 6); [|destruct (strncmp_eq line "UNFOLLOW" 8)].
    - destruct (substr line 7) as [t|]; simpl; [|done].
      destruct (follow_sim (mkFollowOp (username c) (dangling_read t)) st st' HR) as [Ho HR'].
      destruct (stub_follow st _), (stub_follow st' _); simpl in *. by subst.
    - destruct (substr line 9) as [t|]; simpl; [|done].
      destruct (unfollow_sim (mkFollowOp (username c) (dangling_read t)) st st' HR) as [Ho HR'].
      destruct (stub_unfollow st _), (stub_unfollow st' _); simpl in *. by subst.
    - repeat case_match; simpl; done.
  Qed.
End StubSimulation.

(** Two connections of the service look alike to user [u]: the same
    connection id, logged in as [u], on states that look the same to
    [u]. *)
Definition stub_view (u : string) (st st' : World * nat) : Prop :=
  st.2 = st'.2 /\ wview_eq u st.1 st'.1 /\ suser (session_of st.1 st.2) = u.

Lemma stub_graph_request_view (op : string -> string -> Graph -> result GraphError Graph)
    u v st st' :
  (forall u v, Proper (gview_eq u ==> result_rel (gview_eq u)) (op u v)) ->
  stub_view u st st' ->
  let '(w1, r1) := graph_request op st.2 v st.1 in
  let '(w2, r2) := graph_request op st'.2 v st'.1 in
  wire_reply r1 = wire_reply r2 /\ stub_view u (w1, st.2) (w2, st'.2).
Proof.
  intros Hop (Hsid & Hw & Hu). destruct st as [w sid], st' as [w' sid']; simpl in *. subst sid'.
  destruct (graph_request_view op Hop u sid v w w' Hw Hu) as [Hr Hw'].
  destruct (graph_request op sid v w) as [w1 r1] eqn:E1, (graph_request op sid v w') as [w2 r2].
  simpl in *. subst r2. split; [done|]. split; [done|]. split; [exact Hw'|]. simpl.
  unfold session_of. rewrite <- Hu. unfold session_of.
  by rewrite <- (graph_request_sessions op sid v w), E1.
Qed.

(** The service stub's Follow and Unfollow calls, in request form. *)
Lemma Service_stub_follow w sid op :
  stub_follow (w, sid) op =
  (wire_reply (graph_request follow sid (fo_follow op) w).2,
   ((graph_request follow sid (fo_follow op) w).1, sid)).
Proof. simpl. rewrite handle_follow_request. by destruct (graph_request _ _ _ _). Qed.

Lemma Service_stub_unfollow w sid op :
  stub_unfollow (w, sid) op =
  (wire_reply (graph_request unfollow sid (fo_follow op) w).2,
   ((graph_request unfollow sid (fo_follow op) w).1, sid)).
Proof. simpl. rewrite handle_unfollow_request. by destruct (graph_request _ _ _ _). Qed.

Lemma Service_stub_view u op st st' :
  stub_view u st st' ->
  ((stub_follow st op).1 = (stub_follow st' op).1 /\
   stub_view u (stub_follow st op).2 (stub_follow st' op).2) /\
  ((stub_unfollow st op).1 = (stub_unfollow st' op).1 /\
   stub_view u (stub_unfollow st op).2 (stub_unfollow st' op).2).
Proof.
  intros HV. destruct st as [w sid], st' as [w' sid'].
  rewrite !Service_stub_follow, !Service_stub_unfollow. simpl. split.
  - pose proof (stub_graph_request_view follow u (fo_follow op) _ _ follow_view HV) as Hf.
    simpl in Hf. destruct (graph_request follow sid _ w), (graph_request follow sid' _ w'). done.
  - pose proof (stub_graph_request_view unfollow u (fo_follow op) _ _ unfollow_view HV) as Hf.
    simpl in Hf. destruct (graph_request unfollow sid _ w), (graph_request unfollow sid' _ w'). done.
Qed.

(** A command line of a client logged in as another user leaves [u]'s
    view; no command line changes the sessions. *)
Lemma processCommand_other (dangling_read : string -> string) u c line w sid r st' :
  suser (session_of w sid) <> u ->
  processCommand dangling_read c line (w, sid) = Ok (r, st') ->
  st'.2 = sid /\ wview_eq u st'.1 w.
Proof.
  intros Hne H. apply processCommand_service_step in H as [? [-> | [t [-> | ->]]]];
    split; try done.
  - exact (graph_request_other follow follow_other u sid _ w Hne).
  - exact (graph_request_other unfollow unfollow_other u sid _ w Hne).
Qed.

Lemma processCommand_sessions (dangling_read : string -> string) c line w sid r st' :
  processCommand dangling_read c line (w, sid) = Ok (r, st') -> sessions st'.1 = sessions w.
Proof.
  intros H. apply processCommand_service_step in H as [_ [-> | [t [-> | ->]]]]; [done | |].
  - exact (graph_request_sessions follow sid t w).
  - exact (graph_request_sessions unfollow sid t w).
Qed.

(** ** Interleaved clients *)

(** Two clients on connections [sid1] and [sid2]: the scheduler
    delivers their command lines in the order of [evs], each tagged
    [true] for the first client and [false] for the second; the replies
    each client gets are collected in order.  A line that throws ends
    the run. *)
Fixpoint run_interleaved (dangling_read : string -> string) (c1 c2 : Client) (sid1 sid2 : nat) (evs : list (bool * string))
    (w : World) : result CppException ((list IReply * list IReply) * World) :=
  match evs with
  | [] => Ok (([], []), w)
  | (b, line) :: rest =>
      match processCommand dangling_read (if b then c1 else c2) line (w, if b then sid1 else sid2) with
      | Err e => Err e
      | Ok (r, (w1, _)) =>
          match run_interleaved dangling_read c1 c2 sid1 sid2 rest w1 with
          | Err e => Err e
          | Ok ((rs1, rs2), w2) =>
              Ok (if b then ((r :: rs1, rs2), w2) else ((rs1, r :: rs2), w2))
          end
      end
  end.

(** The lines client [b] typed, in its own order. *)
Fixpoint lines_of (b : bool) (evs : list (bool * string)) : list string :=
  match evs with
  | [] => []
  | (b', line) :: rest => if Bool.eqb b b' then line :: lines_of b rest else lines_of b rest
  end.

(** The replies of client [b]. *)
Definition replies_of (b : bool) (rs : list IReply * list IReply) : list IReply :=
  if b then rs.1 else rs.2.

Lemma replies_of_cons (b b' : bool) (r : IReply) (rs1 rs2 : list IReply) :
  replies_of b (if b' then (r :: rs1, rs2) else (rs1, r :: rs2)) =
  if Bool.eqb b b' then r :: replies_of b (rs1, rs2) else replies_of b (rs1, rs2).
Proof. by destruct b, b'. Qed.

Section Interleaving.
  Variables (dangling_read : string -> string) (c1 c2 : Client) (sid1 sid2 : nat) (w0 : World).
  Hypothesis Husers : username c1 <> username c2.
  Hypothesis Hs1 : suser (session_of w0 sid1) = username c1.
  Hypothesis Hs2 : suser (session_of w0 sid2) = username c2.

Lemma session_user_of (b : bool) w :
    sessions w = sessions w0 ->
    suser (session_of w (if b then sid1 else sid2)) = username (if b then c1 else c2).
  Proof. intros Hs. unfold session_of in *. rewrite Hs. by destruct b. Qed.

  (** The simulation: whatever the other client does in between,
      client [b] gets the replies it would get on a state that looks
      the same to its user, and the states keep looking the same. *)
Lemma interleaved_sim (b : bool) evs w wb rs w' :
    sessions w = sessions w0 ->
    wview_eq (username (if b then c1 else c2)) w wb ->
    run_interleaved dangling_read c1 c2 sid1 sid2 evs w = Ok (rs, w') ->
    exists wb', process_commands dangling_read (if b then c1 else c2) (lines_of b evs)
                  (wb, if b then sid1 else sid2) =
                Ok (replies_of b rs, (wb', if b then sid1 else sid2)) /\
                wview_eq (username (if b then c1 else c2)) w' wb'.
  Proof.
    revert w wb rs. induction evs as [|[b' line] evs IH]; intros w wb rs Hses Hw; simpl.
    { intros [= <- <-]. exists wb. by destruct b. }
    destruct (processCommand dangling_read _ line (w, _)) as [[r [w1 s1]]|e] eqn:E; [|done].
    destruct (run_interleaved dangling_read c1 c2 sid1 sid2 evs w1) as [[[rs1 rs2] w2]|e] eqn:E2; [|done].
    intros Hrs.
    assert (rs = (if b' then (r :: rs1, rs2) else (rs1, r :: rs2)) /\ w' = w2) as [-> ->]
      by (destruct b'; by simplify_eq).
    rewrite replies_of_cons.
    pose proof (processCommand_sessions _ _ _ _ _ _ _ E) as Hses1. simpl in Hses1.
    destruct (Bool.eqb_spec b b') as [<-|Hne].
    - (* a line of client [b] *)
      assert (HR : stub_view (username (if b then c1 else c2))
                     (w, if b then sid1 else sid2) (wb, if b then sid1 else sid2))
        by (split_and!; [done | exact Hw | by apply session_user_of]).
      pose proof (processCommand_sim dangling_read (stub_view (username (if b then c1 else c2)))
        (fun op st st' H => proj1 (Service_stub_view _ op st st' H))
        (fun op st st' H => proj2 (Service_stub_view _ op st st' H))
        (if b then c1 else c2) line _ _ HR) as Hsim.
      rewrite E in Hsim.
      destruct (processCommand dangling_read _ line (wb, _)) as [[r' [wb1 sb1]]|] eqn:Eb; [|done].
      simpl in Hsim. destruct Hsim as [<- (Hs & Hw1 & _)]. simpl in Hs, Hw1. subst sb1.
      apply processCommand_service_step in E as [Hsid _]. simpl in Hsid. subst s1.
      destruct (IH w1 wb1 (rs1, rs2) ltac:(congruence) Hw1 E2) as (wb' & Hrun & Hw').
      exists wb'. split; [|exact Hw']. simpl. rewrite Eb. simpl. by rewrite Hrun.
    - (* a line of the other client *)
      apply (processCommand_other dangling_read) with (u := username (if b then c1 else c2)) in E
        as [_ Hw1]; last first.
      { rewrite (session_user_of b' w Hses). by destruct b, b'. }
      simpl in Hw1. apply not_eq_sym, Bool.eqb_false_iff in Hne. rewrite ?Hne.
      apply (IH w1 wb (rs1, rs2)); [congruence | by etrans | exact E2].
  Qed.
End Interleaving.

(** C11: interleaving is invisible to each client.  Two clients logged
    in as different users, on their own connections: for any order in
    which the service receives their command lines, each client gets
    exactly the replies it would get running its own lines alone on
    the initial state, and its user's follow set ends as its own
    session alone leaves it. *)
Theorem clients_interleaving_isolated (dangling_read : string -> string) (c1 c2 : Client) (sid1 sid2 : nat) (w : World)
    (evs : list (bool * string)) (rs : list IReply * list IReply) (w' : World) :
  username c1 <> username c2 ->
  suser (session_of w sid1) = username c1 -> suser (session_of w sid2) = username c2 ->
  run_interleaved dangling_read c1 c2 sid1 sid2 evs w = Ok (rs, w') ->
  (exists w1, process_commands dangling_read c1 (lines_of true evs) (w, sid1) = Ok (rs.1, (w1, sid1)) /\
     following_of (graph w') (username c1) = following_of (graph w1) (username c1)) /\
  (exists w2, process_commands dangling_read c2 (lines_of false evs) (w, sid2) = Ok (rs.2, (w2, sid2)) /\
     following_of (graph w') (username c2) = following_of (graph w2) (username c2)).
Proof.
  intros Hu Hs1 Hs2 Hrun. split.
  - destruct (interleaved_sim dangling_read c1 c2 sid1 sid2 w Hu Hs1 Hs2 true evs w w rs w'
      eq_refl (reflexivity _) Hrun) as (w1 & Hp & _ & _ & _ & Hf).
    by exists w1.
  - destruct (interleaved_sim dangling_read c1 c2 sid1 sid2 w Hu Hs1 Hs2 false evs w w rs w'
      eq_refl (reflexivity _) Hrun) as (w2 & Hp & _ & _ & _ & Hf).
    by exists w2.
Qed.

(** The witness of C11: alice on connection 1 and bob on connection 3
    of the scenario's service interleave their lines. *)
Lemma clients_interleaving_isolated_witness :
  username alice_client <> username bob_client /\
  suser (session_of setup_world 1) = username alice_client /\
  suser (session_of setup_world 3) = username bob_client /\
  is_ok (run_interleaved (fun t => t) alice_client bob_client 1 3
    [(true, "FOLLOW carol"); (false, "FOLLOW alice"); (true, "UNFOLLOW bob"); (false, "LIST")]
    setup_world) = true /\
  match run_interleaved (fun t => t) alice_client bob_client 1 3
    [(true, "FOLLOW carol"); (false, "FOLLOW alice"); (true, "UNFOLLOW bob"); (false, "LIST")]
    setup_world with
  | Ok (rs, w') =>
      (exists w1, process_commands (fun t => t) alice_client (lines_of true
          [(true, "FOLLOW carol"); (false, "FOLLOW alice"); (true, "UNFOLLOW bob"); (false, "LIST")])
          (setup_world, 1) = Ok (rs.1, (w1, 1)) /\
        following_of (graph w') (username alice_client) =
        following_of (graph w1) (username alice_client)) /\
      (exists w2, process_commands (fun t => t) bob_client (lines_of false
          [(true, "FOLLOW carol"); (false, "FOLLOW alice"); (true, "UNFOLLOW bob"); (false, "LIST")])
          (setup_world, 3) = Ok (rs.2, (w2, 3)) /\
        following_of (graph w') (username bob_client) =
        following_of (graph w2) (username bob_client))
  | Err _ => False
  end.
Proof.
  assert (Hu : username alice_client <> username bob_client) by discriminate.
  assert (Hs1 : suser (session_of setup_world 1) = username alice_client)
    by (vm_compute; reflexivity).
  assert (Hs3 : suser (session_of setup_world 3) = username bob_client)
    by (vm_compute; reflexivity).
  split_and!; [exact Hu | exact Hs1 | exact Hs3 | vm_compute; reflexivity |].
  destruct (run_interleaved _ _ _ _ _ _ _) as [[rs w']|e] eqn:Hrun;
    [|vm_compute in Hrun; discriminate].
  exact (clients_interleaving_isolated (fun t => t) _ _ _ _ _ _ _ _ Hu Hs1 Hs3 Hrun).
Defined.
